(** * The calculator skill: [calculate] and the command-line entry point

    A shallow embedding of [.github/skills/calculator/skill.py].

    The program is ten lines around two library calls, [eval] and
    [json.dumps]; their behaviour is what the specification talks about, so
    both are modelled here, for a fragment of Python expressions:

    - literals: decimal integers, imaginary literals ([1j]), quoted strings
      without escapes, [None], the empty dict display, set displays and
      list displays, whose elements may be starred;
    - names, and the assignment expression inside parentheses ([(x := e)]);
    - unary [+ -], binary [+ - * / **], [and], [or], calls.

    Everything outside the fragment (other syntax, attribute access and
    subscripts among it, and a few run-time operations whose result or
    message depends on the C library, on the CPython release or on the
    memory of the machine) is the third outcome [Unmodelled] of the result
    type: the model says nothing about it.  Where a message text depends
    on the release, the text is the one of CPython 3.10 and later.

    [calculate] and [main] are written over an arbitrary evaluator, of
    which the model of [eval] is one instance: what is proved for every
    evaluator holds whatever [eval] does with the expression.

    Floats are IEEE 754 binary64, computed with the specification
    [SpecFloat] of the standard library.  The order in which a set is
    iterated follows the hashes of its elements, under the key that the
    process hashes strings with. *)

From Stdlib Require Import ZArith QArith Qpower String Ascii List Bool Lia.
From Stdlib Require Import DecimalString.
From Stdlib Require DecimalFacts DecimalPos.
From Stdlib Require Import SpecFloat.
From stdpp Require Import base option list gmap strings.

Import ListNotations.
Local Open Scope string_scope.
Local Open Scope Z_scope.

(** ** Exceptions *)

Inductive exn_class :=
| SyntaxError | NameError | TypeError | ZeroDivisionError | OverflowError
| SystemExit.

(** [Raised c msg] is an instance of class [c] whose argument is [msg];
    [SysExit code] is the instance [SystemExit(code)] that [sys.exit]
    raises. *)
Inductive exn :=
| Raised (c : exn_class) (msg : string)
| SysExit (code : Z).

Definition class_of (e : exn) : exn_class :=
  match e with
  | Raised c _ => c
  | SysExit _ => SystemExit
  end.

(** [issubclass(c, Exception)]: of the classes above only [SystemExit]
    derives from [BaseException] directly. *)
Definition is_Exception (c : exn_class) : bool :=
  match c with
  | SystemExit => false
  | _ => true
  end.

(** ** Results of a modelled computation *)

Inductive res (A : Type) :=
| Ret (a : A)
| Exc (e : exn)
| Unmodelled.
Arguments Ret {A} a.
Arguments Exc {A} e.
Arguments Unmodelled {A}.

Definition res_bind {A B} (r : res A) (k : A -> res B) : res B :=
  match r with
  | Ret a => k a
  | Exc e => Exc e
  | Unmodelled => Unmodelled
  end.

Definition modelled {A} (r : res A) : Prop := r <> Unmodelled.

(** ** Values *)

Definition float := spec_float.

Definition prec : Z := 53.
Definition emax : Z := 1024.

#[warnings="-register-all"]
Inductive value :=
| VInt (n : Z)
| VFloat (f : float)
| VComplex (re im : float)
| VStr (s : string)
| VSet (elts : list value)
| VDict (items : list (string * value))
| VList (elts : list value)
| VNone.

(** A [VSet] carries the values of the elements of its display, in
    evaluation order, which is the order of their insertion; the order of
    iteration is computed from it where it is observed ([set_iteration]).
    A [VDict] has [str] keys, in insertion order: the only dicts of the
    program are the two payloads and the empty dict. *)

Definition type_name (v : value) : string :=
  match v with
  | VInt _ => "int"
  | VFloat _ => "float"
  | VComplex _ _ => "complex"
  | VStr _ => "str"
  | VSet _ => "set"
  | VDict _ => "dict"
  | VList _ => "list"
  | VNone => "NoneType"
  end.

Definition float_is_zero (f : float) : bool :=
  match f with
  | S754_zero _ => true
  | _ => false
  end.

(** [bool(v)] *)
Definition truthy (v : value) : bool :=
  match v with
  | VInt n => negb (Z.eqb n 0)
  | VFloat f => negb (float_is_zero f)
  | VComplex re im => negb (float_is_zero re && float_is_zero im)
  | VStr s => negb (String.eqb s "")
  | VSet elts => match elts with [] => false | _ => true end
  | VDict items => match items with [] => false | _ => true end
  | VList elts => match elts with [] => false | _ => true end
  | VNone => false
  end.

Definition hashable (v : value) : bool :=
  match v with
  | VSet _ | VDict _ | VList _ => false
  | _ => true
  end.

(** ** Numbers *)

(** [float(n)] for an [int]: the nearest binary64, ties to even; an
    infinite result stands for the [OverflowError] of the conversion. *)
Definition float_of_Z (n : Z) : float := binary_normalize prec emax n 0 false.

Definition is_infinite (f : float) : bool :=
  match f with
  | S754_infinity _ => true
  | _ => false
  end.

(** [a / b] on two ints, [b] not zero: the correctly rounded quotient. *)
Definition int_true_divide (a b : Z) : float :=
  match a, b with
  | 0, _ => S754_zero (b <? 0)
  | _, 0 => S754_nan
  | _, _ =>
      SFdiv prec emax
        (S754_finite (a <? 0) (Z.to_pos (Z.abs a)) 0)
        (S754_finite (b <? 0) (Z.to_pos (Z.abs b)) 0)
  end.

(** ** Decimal text *)

Definition string_of_Z (n : Z) : string := NilZero.string_of_int (Z.to_int n).

(** The default limit of [sys.set_int_max_str_digits]. *)
Definition int_max_str_digits : nat := 4300.

Definition Z_of_digits (s : string) : option Z :=
  match NilEmpty.uint_of_string s with
  | Some u => Some (Z.of_uint u)
  | None => None
  end.

(** ** The text of a float: [float.__repr__]

    The shortest decimal string that reads back as the same binary64 and,
    among those, the one nearest to the float.  A finite float is
    [m * 2^e]; the decimals that read back as it are those between the
    midpoints to its two neighbours (included when [m] is even, by the
    ties-to-even rule).  All comparisons are exact, on integers: with
    [u = 2^(e-2)], the float is [4m] units, the upper midpoint [4m+2], the
    lower one [4m-2], or [4m-1] just above a power of two. *)

Fixpoint scale_up (fuel : nat) (num den j : Z) : Z :=
  match fuel with
  | O => j
  | S fuel' => if den <=? num then j else scale_up fuel' (num * 10) den (j + 1)
  end.

(** The decimal point position [n] of [num/den > 0]:
    [10^(n-1) <= num/den < 10^n]. *)
Definition decimal_point (num den : Z) : Z :=
  if den <=? num
  then Z.of_nat (String.length (string_of_Z (num / den)))
  else 1 - scale_up 400 num den 0.

Definition in_interval (incl : bool) (lo x hi : Z) : bool :=
  if incl then (lo <=? x) && (x <=? hi) else (lo <? x) && (x <? hi).

(** The [k]-digit candidate for a float of [X] units of [unit_num/unit_den],
    whose decimal point is at [n]: an integer [c] with [c * 10^(n-k)] inside
    the interval, if there is one. *)
Definition candidate (incl : bool) (Lo X Hi unit_num unit_den n k : Z) : option Z :=
  let t_num := if 0 <=? n - k then 10 ^ (n - k) else 1 in
  let t_den := if 0 <=? n - k then 1 else 10 ^ (k - n) in
  let P := unit_num * t_den in
  let Q := t_num * unit_den in
  let d := (X * P) / Q in
  let below := in_interval incl (Lo * P) (d * Q) (Hi * P) in
  let above := in_interval incl (Lo * P) ((d + 1) * Q) (Hi * P) in
  match below, above with
  | true, false => Some d
  | false, true => Some (d + 1)
  | false, false => None
  | true, true =>
      match (X * P - d * Q) ?= ((d + 1) * Q - X * P) with
      | Lt => Some d
      | Gt => Some (d + 1)
      | Eq => Some (if Z.even d then d else d + 1)
      end
  end.

Fixpoint strip_zeros_rev (cs : list ascii) : list ascii :=
  match cs with
  | "0"%char :: cs' => strip_zeros_rev cs'
  | _ => cs
  end.

Definition strip_trailing_zeros (s : string) : string :=
  string_of_list_ascii
    (rev (strip_zeros_rev (rev (list_ascii_of_string s)))).

(** Digits and decimal point of the shortest representation, trying
    [k = 1, 2, ...] digits. *)
Fixpoint shortest_from (fuel : nat) (incl : bool)
    (Lo X Hi unit_num unit_den n k : Z) : option (string * Z) :=
  match fuel with
  | O => None
  | S fuel' =>
      match candidate incl Lo X Hi unit_num unit_den n k with
      | Some c =>
          let s := string_of_Z c in
          Some (strip_trailing_zeros s, n - k + Z.of_nat (String.length s))
      | None => shortest_from fuel' incl Lo X Hi unit_num unit_den n (k + 1)
      end
  end.

Definition shortest_digits (m : positive) (e : Z) : option (string * Z) :=
  let E := e - 2 in
  let unit_num := if 0 <=? E then 2 ^ E else 1 in
  let unit_den := if 0 <=? E then 1 else 2 ^ (- E) in
  let X := 4 * Zpos m in
  let Lo := if (Zpos m =? 2 ^ (prec - 1)) && (3 - emax - prec <? e)
            then X - 1 else X - 2 in
  let Hi := X + 2 in
  let n := decimal_point (X * unit_num) unit_den in
  shortest_from 17 (Z.even (Zpos m)) Lo X Hi unit_num unit_den n 1.

Fixpoint zeros (n : nat) : string :=
  match n with
  | O => ""
  | S n' => String "0" (zeros n')
  end.

(** Format code ['r']: fixed notation when [-4 < n <= 16], else an
    exponent of at least two digits. *)
Definition format_digits (ds : string) (n : Z) : string :=
  let k := Z.of_nat (String.length ds) in
  if (-4 <? n) && (n <=? 16) then
    if n <=? 0 then "0." ++ zeros (Z.to_nat (- n)) ++ ds
    else if n <? k then
      substring 0 (Z.to_nat n) ds ++ "." ++
      substring (Z.to_nat n) (Z.to_nat (k - n)) ds
    else ds ++ zeros (Z.to_nat (n - k)) ++ ".0"
  else
    let x := n - 1 in
    substring 0 1 ds ++
    (if 1 <? k then "." ++ substring 1 (Z.to_nat (k - 1)) ds else "") ++
    "e" ++ (if x <? 0 then "-" else "+") ++
    (if Z.abs x <? 10 then "0" else "") ++ string_of_Z (Z.abs x).

Definition float_repr (f : float) : option string :=
  match f with
  | S754_zero s => Some (if s then "-0.0" else "0.0")
  | S754_infinity s => Some (if s then "-inf" else "inf")
  | S754_nan => Some "nan"
  | S754_finite s m e =>
      match shortest_digits m e with
      | Some (ds, n) => Some ((if s then "-" else "") ++ format_digits ds n)
      | None => None
      end
  end.

(** ** [json.dumps]

    With the default [ensure_ascii=True], every character outside
    [' '..'~'], the quote and the backslash are escaped.  A [string] is
    read as a [str] of code points below 256. *)

Definition quote_char : string := String (ascii_of_N 34) "".

Definition hex_digit (n : N) : ascii :=
  ascii_of_N (if (n <? 10)%N then 48 + n else 87 + n)%N.

Definition json_escape_char (c : ascii) : string :=
  let n := N_of_ascii c in
  if (n =? 34)%N then "\" ++ quote_char
  else if (n =? 92)%N then "\\"
  else if (n =? 10)%N then "\n"
  else if (n =? 13)%N then "\r"
  else if (n =? 9)%N then "\t"
  else if (n =? 8)%N then "\b"
  else if (n =? 12)%N then "\f"
  else if ((32 <=? n) && (n <=? 126))%N then String c ""
  else "\u00" ++ String (hex_digit (n / 16)) (String (hex_digit (n mod 16)) "").

Fixpoint json_escape (s : string) : string :=
  match s with
  | EmptyString => ""
  | String c s' => json_escape_char c ++ json_escape s'
  end.

Definition json_string (s : string) : string :=
  quote_char ++ json_escape s ++ quote_char.

Definition float_json (f : float) : option string :=
  match f with
  | S754_infinity s => Some (if s then "-Infinity" else "Infinity")
  | S754_nan => Some "NaN"
  | _ => float_repr f
  end.

Definition within_digit_limit (n : Z) : bool :=
  (String.length (string_of_Z (Z.abs n)) <=? int_max_str_digits)%nat.

Fixpoint join (sep : string) (l : list string) : string :=
  match l with
  | [] => ""
  | [x] => x
  | x :: l' => x ++ sep ++ join sep l'
  end.

Definition not_serializable (v : value) : exn :=
  Raised TypeError
    ("Object of type " ++ type_name v ++ " is not JSON serializable").

(** An [int] of more than 4300 digits is [Unmodelled]: releases with the
    conversion limit raise [ValueError], older ones print the digits. *)
Fixpoint json_dumps (v : value) : res string :=
  match v with
  | VInt n => if within_digit_limit n then Ret (string_of_Z n) else Unmodelled
  | VFloat f =>
      match float_json f with
      | Some s => Ret s
      | None => Unmodelled
      end
  | VStr s => Ret (json_string s)
  | VNone => Ret "null"
  | VDict items =>
      res_bind
        ((fix members (l : list (string * value)) : res (list string) :=
            match l with
            | [] => Ret []
            | (k, x) :: l' =>
                res_bind (json_dumps x) (fun sx =>
                res_bind (members l') (fun rest =>
                Ret ((json_string k ++ ": " ++ sx) :: rest)))
            end) items)
        (fun parts => Ret ("{" ++ join ", " parts ++ "}"))
  | VList elts =>
      res_bind
        ((fix items (l : list value) : res (list string) :=
            match l with
            | [] => Ret []
            | x :: l' =>
                res_bind (json_dumps x) (fun sx =>
                res_bind (items l') (fun rest => Ret (sx :: rest)))
            end) elts)
        (fun parts => Ret ("[" ++ join ", " parts ++ "]"))
  | VSet _ | VComplex _ _ => Exc (not_serializable v)
  end.

(** ** Tokens *)

Inductive token :=
| NUMBER (n : Z)
| IMAG (n : Z)
| NAME (id : string)
| STRING (s : string)
| NONE
| PLUS | MINUS | STAR | SLASH | DOUBLESTAR
| LPAR | RPAR | LSQB | RSQB | LBRACE | RBRACE | COMMA | COLONEQUAL
| AND | OR.

Definition is_digit (c : ascii) : bool :=
  let n := N_of_ascii c in ((48 <=? n) && (n <=? 57))%N.

Definition is_name_start (c : ascii) : bool :=
  let n := N_of_ascii c in
  (((65 <=? n) && (n <=? 90)) || ((97 <=? n) && (n <=? 122)) || (n =? 95))%N.

Definition is_quote (c : ascii) : bool :=
  let n := N_of_ascii c in ((n =? 34) || (n =? 39))%N.

Definition is_string_char (c : ascii) : bool :=
  let n := N_of_ascii c in ((32 <=? n) && (n <=? 126) && negb (n =? 92))%N.

Definition keywords : list string :=
  ["False"; "None"; "True"; "as"; "assert"; "async"; "await"; "break";
   "class"; "continue"; "def"; "del"; "elif"; "else"; "except"; "finally";
   "for"; "from"; "global"; "if"; "import"; "in"; "is"; "lambda";
   "nonlocal"; "not"; "pass"; "raise"; "return"; "try"; "while"; "with";
   "yield"; "__debug__"].

Definition string_in (s : string) (l : list string) : bool :=
  existsb (String.eqb s) l.

(** [and], [or] and [None] are the keywords of the fragment; the other
    keywords, and the compile-time constant [__debug__], are outside it. *)
Definition name_token (s : string) : option token :=
  if String.eqb s "and" then Some AND
  else if String.eqb s "or" then Some OR
  else if String.eqb s "None" then Some NONE
  else if string_in s keywords then None
  else Some (NAME s).

Definition text_of_rev (cs : list ascii) : string :=
  string_of_list_ascii (rev cs).

(** A decimal integer literal: no leading zero unless it is all zeros,
    and at most 4300 digits. *)
Definition number_token (cs : list ascii) : option token :=
  let s := text_of_rev cs in
  match Z_of_digits s with
  | Some n =>
      if (String.length s <=? int_max_str_digits)%nat
         && ((n =? 0) || negb (String.eqb (substring 0 1 s) "0"))
      then Some (NUMBER n) else None
  | None => None
  end.

Definition imag_token (cs : list ascii) : option token :=
  match Z_of_digits (text_of_rev cs) with
  | Some n => Some (IMAG n)
  | None => None
  end.

Inductive lex_state :=
| LStart
| LNumber (digits : list ascii)
| LAfterImag
| LName (chars : list ascii)
| LString (quote : ascii) (chars : list ascii)
| LOperator (c : ascii)
| LDoubleStar.

Definition operator_token (c : ascii) : option token :=
  if Ascii.eqb c "+" then Some PLUS
  else if Ascii.eqb c "-" then Some MINUS
  else if Ascii.eqb c "*" then Some STAR
  else if Ascii.eqb c "/" then Some SLASH
  else None.

(** One character read with no lexeme pending. *)
Definition lex_start (c : ascii) : option (list token * lex_state) :=
  if Ascii.eqb c " " || Ascii.eqb c (ascii_of_N 9) then Some ([], LStart)
  else if is_digit c then Some ([], LNumber [c])
  else if is_name_start c then Some ([], LName [c])
  else if is_quote c then Some ([], LString c [])
  else if Ascii.eqb c "(" then Some ([LPAR], LStart)
  else if Ascii.eqb c ")" then Some ([RPAR], LStart)
  else if Ascii.eqb c "[" then Some ([LSQB], LStart)
  else if Ascii.eqb c "]" then Some ([RSQB], LStart)
  else if Ascii.eqb c "{" then Some ([LBRACE], LStart)
  else if Ascii.eqb c "}" then Some ([RBRACE], LStart)
  else if Ascii.eqb c "," then Some ([COMMA], LStart)
  else if Ascii.eqb c ":" then Some ([], LOperator c)
  else match operator_token c with
       | Some _ => Some ([], LOperator c)
       | None => None
       end.

Definition emit_then (t : option token) (c : ascii)
  : option (list token * lex_state) :=
  match t, lex_start c with
  | Some t, Some (ts, st) => Some (t :: ts, st)
  | _, _ => None
  end.

Definition lex_step (st : lex_state) (c : ascii)
  : option (list token * lex_state) :=
  match st with
  | LStart => lex_start c
  | LNumber ds =>
      if is_digit c then Some ([], LNumber (c :: ds))
      else if Ascii.eqb c "j" || Ascii.eqb c "J" then
        match imag_token ds with
        | Some t => Some ([t], LAfterImag)
        | None => None
        end
      else if is_name_start c || Ascii.eqb c "." then None
      else emit_then (number_token ds) c
  | LAfterImag =>
      if is_name_start c || is_digit c || Ascii.eqb c "." then None
      else lex_start c
  | LName cs =>
      if is_name_start c || is_digit c then Some ([], LName (c :: cs))
      else if is_quote c then None
      else emit_then (name_token (text_of_rev cs)) c
  | LString q cs =>
      if Ascii.eqb c q then Some ([STRING (text_of_rev cs)], LStart)
      else if is_string_char c then Some ([], LString q (c :: cs))
      else None
  | LOperator o =>
      if Ascii.eqb o ":" then
        if Ascii.eqb c "=" then Some ([COLONEQUAL], LStart) else None
      else if Ascii.eqb c "=" then None
      else if Ascii.eqb o "*" && Ascii.eqb c "*" then Some ([], LDoubleStar)
      else if Ascii.eqb o "/" && Ascii.eqb c "/" then None
      else if Ascii.eqb o "-" && Ascii.eqb c ">" then None
      else emit_then (operator_token o) c
  | LDoubleStar =>
      if Ascii.eqb c "=" then None else emit_then (Some DOUBLESTAR) c
  end.

Definition lex_end (st : lex_state) : option (list token) :=
  match st with
  | LStart | LAfterImag => Some []
  | LNumber ds => option_map (fun t => [t]) (number_token ds)
  | LName cs => option_map (fun t => [t]) (name_token (text_of_rev cs))
  | LString _ _ => None
  | LOperator o => option_map (fun t => [t]) (operator_token o)
  | LDoubleStar => Some [DOUBLESTAR]
  end.

Fixpoint lex (st : lex_state) (s : string) : option (list token) :=
  match s with
  | EmptyString => lex_end st
  | String c s' =>
      match lex_step st c with
      | Some (ts, st') =>
          match lex st' s' with
          | Some rest => Some (ts ++ rest)%list
          | None => None
          end
      | None => None
      end
  end.

Definition tokenize (s : string) : option (list token) := lex LStart s.

(** ** Abstract syntax *)

Inductive unaryop := UAdd | USub.
Inductive operator := Add | Sub | Mult | Div | Pow.
Inductive boolop := And | Or.

Inductive constant :=
| CInt (n : Z)
| CImag (n : Z)
| CStr (s : string)
| CNone.

#[warnings="-register-all"]
Inductive expr :=
| Constant (c : constant)
| Name (id : string)
| UnaryOp (op : unaryop) (operand : expr)
| BinOp (left : expr) (op : operator) (right : expr)
| BoolOp (op : boolop) (left right : expr)
| NamedExpr (target : string) (val : expr)
| Call (func : expr) (args : list expr)
| SetDisplay (elts : list expr)
| DictDisplay
| ListDisplay (elts : list expr)
| Starred (val : expr).

(** [Starred] is the element [*e] of a list display; the parser puts it
    nowhere else. *)

Definition is_starred (e : expr) : bool :=
  match e with
  | Starred _ => true
  | _ => false
  end.

(** The expression that an element of a display evaluates. *)
Definition element_value (e : expr) : expr :=
  match e with
  | Starred a => a
  | _ => e
  end.

Inductive bracket := Round | Square | Curly.

Definition closes (b : bracket) (t : token) : bool :=
  match b, t with
  | Round, RPAR | Square, RSQB | Curly, RBRACE => true
  | _, _ => false
  end.

(** ** The parser

    Recursive descent along the rules of the CPython grammar that the
    fragment keeps:

      disjunction: conjunction ('or' conjunction)*
      conjunction: sum ('and' sum)*
      sum:         term (('+' | '-') term)*
      term:        factor (('*' | '/') factor)*
      factor:      ('+' | '-') factor | power
      power:       primary ['**' factor]
      primary:     atom ('(' [arguments] ')')*
      atom:        NAME | NUMBER | STRING | 'None'
                 | '(' NAME ':=' disjunction ')'
                 | '(' disjunction ')' | '{' '}' | '{' elements '}'
                 | '[' [elements] ']'
      element:     '*' sum | disjunction        ('*' in a list display only)

    [top] tells that no bracket is open.  The one syntax error of the model
    is the end of the input where an operand must start, with no bracket
    open: CPython reports it as "invalid syntax".  Every other failure is
    [Outside] the fragment. *)

Definition invalid_syntax : exn := Raised SyntaxError "invalid syntax".

(** The outcome of a parsing function: a tree and the tokens left, the
    syntax error, or an input outside the fragment. *)
Inductive parsed (A : Type) :=
| Parsed (a : A) (rest : list token)
| BadSyntax
| Outside.
Arguments Parsed {A} a rest.
Arguments BadSyntax {A}.
Arguments Outside {A}.

Definition parsed_bind {A B} (r : parsed A) (k : A -> list token -> parsed B)
  : parsed B :=
  match r with
  | Parsed a ts => k a ts
  | BadSyntax => BadSyntax
  | Outside => Outside
  end.

Fixpoint parse_disjunction (fuel : nat) (top : bool) (ts : list token)
  {struct fuel} : parsed expr :=
  match fuel with
  | O => Outside
  | S fuel =>
      parsed_bind (parse_conjunction fuel top ts) (fun l ts =>
      disjunction_rest fuel top l ts)
  end
with disjunction_rest (fuel : nat) (top : bool) (l : expr) (ts : list token)
  {struct fuel} : parsed expr :=
  match fuel with
  | O => Outside
  | S fuel =>
      match ts with
      | OR :: ts =>
          parsed_bind (parse_conjunction fuel top ts) (fun r ts =>
          disjunction_rest fuel top (BoolOp Or l r) ts)
      | _ => Parsed l ts
      end
  end
with parse_conjunction (fuel : nat) (top : bool) (ts : list token)
  {struct fuel} : parsed expr :=
  match fuel with
  | O => Outside
  | S fuel =>
      parsed_bind (parse_sum fuel top ts) (fun l ts =>
      conjunction_rest fuel top l ts)
  end
with conjunction_rest (fuel : nat) (top : bool) (l : expr) (ts : list token)
  {struct fuel} : parsed expr :=
  match fuel with
  | O => Outside
  | S fuel =>
      match ts with
      | AND :: ts =>
          parsed_bind (parse_sum fuel top ts) (fun r ts =>
          conjunction_rest fuel top (BoolOp And l r) ts)
      | _ => Parsed l ts
      end
  end
with parse_sum (fuel : nat) (top : bool) (ts : list token)
  {struct fuel} : parsed expr :=
  match fuel with
  | O => Outside
  | S fuel =>
      parsed_bind (parse_term fuel top ts) (fun l ts =>
      sum_rest fuel top l ts)
  end
with sum_rest (fuel : nat) (top : bool) (l : expr) (ts : list token)
  {struct fuel} : parsed expr :=
  match fuel with
  | O => Outside
  | S fuel =>
      match ts with
      | PLUS :: ts =>
          parsed_bind (parse_term fuel top ts) (fun r ts =>
          sum_rest fuel top (BinOp l Add r) ts)
      | MINUS :: ts =>
          parsed_bind (parse_term fuel top ts) (fun r ts =>
          sum_rest fuel top (BinOp l Sub r) ts)
      | _ => Parsed l ts
      end
  end
with parse_term (fuel : nat) (top : bool) (ts : list token)
  {struct fuel} : parsed expr :=
  match fuel with
  | O => Outside
  | S fuel =>
      parsed_bind (parse_factor fuel top ts) (fun l ts =>
      term_rest fuel top l ts)
  end
with term_rest (fuel : nat) (top : bool) (l : expr) (ts : list token)
  {struct fuel} : parsed expr :=
  match fuel with
  | O => Outside
  | S fuel =>
      match ts with
      | STAR :: ts =>
          parsed_bind (parse_factor fuel top ts) (fun r ts =>
          term_rest fuel top (BinOp l Mult r) ts)
      | SLASH :: ts =>
          parsed_bind (parse_factor fuel top ts) (fun r ts =>
          term_rest fuel top (BinOp l Div r) ts)
      | _ => Parsed l ts
      end
  end
with parse_factor (fuel : nat) (top : bool) (ts : list token)
  {struct fuel} : parsed expr :=
  match fuel with
  | O => Outside
  | S fuel =>
      match ts with
      | PLUS :: ts =>
          parsed_bind (parse_factor fuel top ts) (fun a ts =>
          Parsed (UnaryOp UAdd a) ts)
      | MINUS :: ts =>
          parsed_bind (parse_factor fuel top ts) (fun a ts =>
          Parsed (UnaryOp USub a) ts)
      | _ => parse_power fuel top ts
      end
  end
with parse_power (fuel : nat) (top : bool) (ts : list token)
  {struct fuel} : parsed expr :=
  match fuel with
  | O => Outside
  | S fuel =>
      parsed_bind (parse_primary fuel top ts) (fun l ts =>
      match ts with
      | DOUBLESTAR :: ts =>
          parsed_bind (parse_factor fuel top ts) (fun r ts =>
          Parsed (BinOp l Pow r) ts)
      | _ => Parsed l ts
      end)
  end
with parse_primary (fuel : nat) (top : bool) (ts : list token)
  {struct fuel} : parsed expr :=
  match fuel with
  | O => Outside
  | S fuel =>
      parsed_bind (parse_atom fuel top ts) (fun a ts =>
      primary_rest fuel a ts)
  end
with primary_rest (fuel : nat) (f : expr) (ts : list token)
  {struct fuel} : parsed expr :=
  match fuel with
  | O => Outside
  | S fuel =>
      match ts with
      | LPAR :: ts =>
          parsed_bind (parse_items fuel Round ts) (fun args ts =>
          primary_rest fuel (Call f args) ts)
      | _ => Parsed f ts
      end
  end
with parse_atom (fuel : nat) (top : bool) (ts : list token)
  {struct fuel} : parsed expr :=
  match fuel with
  | O => Outside
  | S fuel =>
      match ts with
      | [] => if top then BadSyntax else Outside
      | NUMBER n :: ts => Parsed (Constant (CInt n)) ts
      | IMAG n :: ts => Parsed (Constant (CImag n)) ts
      | STRING s :: ts => Parsed (Constant (CStr s)) ts
      | NONE :: ts => Parsed (Constant CNone) ts
      | NAME id :: ts => Parsed (Name id) ts
      | LPAR :: NAME id :: COLONEQUAL :: ts =>
          parsed_bind (parse_disjunction fuel false ts) (fun v ts =>
          match ts with
          | RPAR :: ts => Parsed (NamedExpr id v) ts
          | _ => Outside
          end)
      | LPAR :: ts =>
          parsed_bind (parse_disjunction fuel false ts) (fun e ts =>
          match ts with
          | RPAR :: ts => Parsed e ts
          | _ => Outside
          end)
      | LBRACE :: RBRACE :: ts => Parsed DictDisplay ts
      | LBRACE :: ts =>
          parsed_bind (parse_items fuel Curly ts) (fun elts ts =>
          match elts with
          | [] => Outside
          | _ => Parsed (SetDisplay elts) ts
          end)
      | LSQB :: ts =>
          parsed_bind (parse_items fuel Square ts) (fun elts ts =>
          Parsed (ListDisplay elts) ts)
      | _ => Outside
      end
  end
(** The items of a call or of a display, after the opening bracket [b],
    up to the closing one; a comma may follow the last item. *)
with parse_items (fuel : nat) (b : bracket) (ts : list token)
  {struct fuel} : parsed (list expr) :=
  match fuel with
  | O => Outside
  | S fuel =>
      match ts with
      | [] => Outside
      | t :: ts' =>
          if closes b t then Parsed [] ts'
          else
            parsed_bind (parse_item fuel b ts) (fun e ts =>
            match ts with
            | [] => Outside
            | COMMA :: ts =>
                parsed_bind (parse_items fuel b ts) (fun es ts =>
                Parsed (e :: es) ts)
            | t :: ts => if closes b t then Parsed [e] ts else Outside
            end)
      end
  end
with parse_item (fuel : nat) (b : bracket) (ts : list token)
  {struct fuel} : parsed expr :=
  match fuel with
  | O => Outside
  | S fuel =>
      match b, ts with
      | Square, STAR :: ts =>
          parsed_bind (parse_sum fuel false ts) (fun a ts =>
          Parsed (Starred a) ts)
      | _, _ => parse_disjunction fuel false ts
      end
  end.

(** CPython bounds the nesting of brackets (200) and the depth of the
    syntax tree; inputs of more than [max_tokens] tokens, which could reach
    those bounds, are outside the model. *)
Definition max_tokens : nat := 100.

Definition parse (source : string) : res expr :=
  match tokenize source with
  | None | Some [] => Unmodelled
  | Some ts =>
      if (length ts <=? max_tokens)%nat then
        match parse_disjunction (16 * S (length ts)) true ts with
        | Parsed e [] => Ret e
        | Parsed _ (_ :: _) => Unmodelled
        | BadSyntax => Exc invalid_syntax
        | Outside => Unmodelled
        end
      else Unmodelled
  end.

(** ** Operators *)

Definition operator_symbol (op : operator) : string :=
  match op with
  | Add => "+"
  | Sub => "-"
  | Mult => "*"
  | Div => "/"
  | Pow => "** or pow()"
  end.

Definition unsupported_operands (op : operator) (a b : value) : exn :=
  Raised TypeError
    ("unsupported operand type(s) for " ++ operator_symbol op ++ ": '" ++
     type_name a ++ "' and '" ++ type_name b ++ "'").

Definition int_too_large : exn :=
  Raised OverflowError "int too large to convert to float".

(** The operand of a float operation as a float. *)
Definition as_float (v : value) : res float :=
  match v with
  | VFloat f => Ret f
  | VInt n =>
      let f := float_of_Z n in
      if is_infinite f then Exc int_too_large else Ret f
  | _ => Unmodelled
  end.

(** A power of two [int]s is computed exactly when the exponent is not
    negative.  One whose result could take more than [max_int_bits] bits is
    outside the model: whether CPython returns it or raises MemoryError
    depends on the machine.  (A negative exponent gives a float, through
    the C library.) *)
Definition max_int_bits : Z := 1048576.

Definition power_fits (a b : Z) : bool :=
  (0 <=? b) && ((Z.log2 (Z.abs a) + 1) * b <=? max_int_bits).

Definition int_op (op : operator) (a b : Z) : res value :=
  match op with
  | Add => Ret (VInt (a + b))
  | Sub => Ret (VInt (a - b))
  | Mult => Ret (VInt (a * b))
  | Div =>
      if b =? 0 then Exc (Raised ZeroDivisionError "division by zero")
      else
        let f := int_true_divide a b in
        if is_infinite f
        then Exc (Raised OverflowError
                    "integer division result too large for a float")
        else Ret (VFloat f)
  | Pow => if power_fits a b then Ret (VInt (a ^ b)) else Unmodelled
  end.

(** Float arithmetic.  A division by a zero float and every power with a
    float operand are outside the model (the message of the first differs
    between releases, the second is the C library's [pow]). *)
Definition float_op (op : operator) (a b : float) : res value :=
  match op with
  | Add => Ret (VFloat (SFadd prec emax a b))
  | Sub => Ret (VFloat (SFsub prec emax a b))
  | Mult => Ret (VFloat (SFmul prec emax a b))
  | Div =>
      if float_is_zero b then Unmodelled
      else Ret (VFloat (SFdiv prec emax a b))
  | Pow => Unmodelled
  end.

(** Complex arithmetic on two complex operands, as the C code writes it;
    division and power are outside the model. *)
Definition complex_op (op : operator) (ar ai br bi : float) : res value :=
  match op with
  | Add => Ret (VComplex (SFadd prec emax ar br) (SFadd prec emax ai bi))
  | Sub => Ret (VComplex (SFsub prec emax ar br) (SFsub prec emax ai bi))
  | Mult =>
      Ret (VComplex
             (SFsub prec emax (SFmul prec emax ar br) (SFmul prec emax ai bi))
             (SFadd prec emax (SFmul prec emax ar bi) (SFmul prec emax ai br)))
  | Div | Pow => Unmodelled
  end.

Definition is_number (v : value) : bool :=
  match v with
  | VInt _ | VFloat _ | VComplex _ _ => true
  | _ => false
  end.

Definition is_str (v : value) : bool :=
  match v with
  | VStr _ => true
  | _ => false
  end.

(** [a op b].  Outside the model: a complex operand mixed with an int or
    a float, the repetition of a string, the difference of two sets, a
    list operand. *)
Definition binary_op (op : operator) (a b : value) : res value :=
  match a, b with
  | VInt x, VInt y => int_op op x y
  | VInt _, VFloat _ | VFloat _, VInt _ | VFloat _, VFloat _ =>
      res_bind (as_float a) (fun x =>
      res_bind (as_float b) (fun y => float_op op x y))
  | VComplex ar ai, VComplex br bi => complex_op op ar ai br bi
  | VComplex _ _, (VInt _ | VFloat _)
  | (VInt _ | VFloat _), VComplex _ _ => Unmodelled
  | VList _, _ | _, VList _ => Unmodelled
  | _, _ =>
      match op with
      | Add =>
          match a, b with
          | VStr x, VStr y => Ret (VStr (x ++ y))
          | VStr _, _ =>
              Exc (Raised TypeError
                     ("can only concatenate str (not " ++ quote_char ++
                      type_name b ++ quote_char ++ ") to str"))
          | _, _ => Exc (unsupported_operands op a b)
          end
      | Mult =>
          match a, b with
          | VStr _, VInt _ | VInt _, VStr _ => Unmodelled
          | VStr _, _ =>
              Exc (Raised TypeError
                     ("can't multiply sequence by non-int of type '" ++
                      type_name b ++ "'"))
          | _, VStr _ =>
              Exc (Raised TypeError
                     ("can't multiply sequence by non-int of type '" ++
                      type_name a ++ "'"))
          | _, _ => Exc (unsupported_operands op a b)
          end
      | Sub =>
          match a, b with
          | VSet _, VSet _ => Unmodelled
          | _, _ => Exc (unsupported_operands op a b)
          end
      | Div | Pow => Exc (unsupported_operands op a b)
      end
  end.

Definition unary_symbol (op : unaryop) : string :=
  match op with
  | UAdd => "+"
  | USub => "-"
  end.

Definition unary_op (op : unaryop) (a : value) : res value :=
  match a, op with
  | VInt n, UAdd => Ret (VInt n)
  | VInt n, USub => Ret (VInt (- n))
  | VFloat f, UAdd => Ret (VFloat f)
  | VFloat f, USub => Ret (VFloat (SFopp f))
  | VComplex re im, UAdd => Ret (VComplex re im)
  | VComplex re im, USub => Ret (VComplex (SFopp re) (SFopp im))
  | _, _ =>
      Exc (Raised TypeError
             ("bad operand type for unary " ++ unary_symbol op ++ ": '" ++
              type_name a ++ "'"))
  end.

Definition constant_value (c : constant) : value :=
  match c with
  | CInt n => VInt n
  | CImag n => VComplex (S754_zero false) (float_of_Z n)
  | CStr s => VStr s
  | CNone => VNone
  end.

(** ** Evaluation

    [eval(expression, globals, locals)] looks a name up in [locals], then
    in [globals], then in the builtins, which are the dict bound to
    ["__builtins__"] in [globals]; an assignment expression binds its
    target in [locals]. *)

Definition name_error (id : string) : exn :=
  Raised NameError ("name '" ++ id ++ "' is not defined").

Fixpoint assoc (id : string) (items : list (string * value)) : option value :=
  match items with
  | [] => None
  | (k, v) :: items' => if String.eqb k id then Some v else assoc id items'
  end.

Definition load_name (globals locals : gmap string value) (id : string)
  : res value :=
  match locals !! id with
  | Some v => Ret v
  | None =>
      match globals !! id with
      | Some v => Ret v
      | None =>
          match globals !! "__builtins__" with
          | Some (VDict builtins) =>
              match assoc id builtins with
              | Some v => Ret v
              | None => Exc (name_error id)
              end
          | _ => Unmodelled
          end
      end
  end.

Definition not_callable (f : value) : exn :=
  Raised TypeError ("'" ++ type_name f ++ "' object is not callable").

(** [BUILD_SET]: the elements are added in order; the first unhashable
    one raises. *)
Fixpoint first_unhashable (vs : list value) : option value :=
  match vs with
  | [] => None
  | v :: vs' => if hashable v then first_unhashable vs' else Some v
  end.

Definition build_set (vs : list value) : res value :=
  match first_unhashable vs with
  | Some v => Exc (Raised TypeError ("unhashable type: '" ++ type_name v ++ "'"))
  | None => Ret (VSet vs)
  end.

(** ** The hash of a [str] and the order of a set

    CPython hashes the bytes of a [str] with SipHash-1-3 (release 3.11 and
    later), under a 128-bit key that the process draws at start-up, unless
    the environment variable [PYTHONHASHSEED] fixes it.  The arithmetic is
    that of [uint64_t]. *)

Record siphash_key := SipKey { k0 : Z; k1 : Z }.

Definition u64 (x : Z) : Z := x mod 2 ^ 64.

Definition rotate (x b : Z) : Z :=
  u64 (Z.lor (Z.shiftl x b) (Z.shiftr x (64 - b))).

Definition sip_state : Type := Z * Z * Z * Z.

Definition half_round (a b c d s t : Z) : Z * Z * Z * Z :=
  let a := u64 (a + b) in
  let c := u64 (c + d) in
  let b := Z.lxor (rotate b s) a in
  let d := Z.lxor (rotate d t) c in
  let a := rotate a 32 in
  (a, b, c, d).

Definition single_round (v : sip_state) : sip_state :=
  let '(v0, v1, v2, v3) := v in
  let '(v0, v1, v2, v3) := half_round v0 v1 v2 v3 13 16 in
  let '(v2, v1, v0, v3) := half_round v2 v1 v0 v3 17 21 in
  (v0, v1, v2, v3).

(** One word of the message. *)
Definition sip_word (mi : Z) (v : sip_state) : sip_state :=
  let '(v0, v1, v2, v3) := v in
  let '(v0, v1, v2, v3) := single_round (v0, v1, v2, Z.lxor v3 mi) in
  (Z.lxor v0 mi, v1, v2, v3).

(** A little-endian word. *)
Fixpoint le_word (bs : list Z) : Z :=
  match bs with
  | [] => 0
  | b :: bs' => b + 256 * le_word bs'
  end.

(** The whole words of the message, and the bytes left. *)
Fixpoint sip_words (bs : list Z) (v : sip_state) : sip_state * list Z :=
  match bs with
  | b0 :: b1 :: b2 :: b3 :: b4 :: b5 :: b6 :: b7 :: bs' =>
      sip_words bs' (sip_word (le_word [b0; b1; b2; b3; b4; b5; b6; b7]) v)
  | _ => (v, bs)
  end.

Definition siphash13 (key : siphash_key) (bs : list Z) : Z :=
  let v := (Z.lxor (k0 key) 0x736f6d6570736575,
            Z.lxor (k1 key) 0x646f72616e646f6d,
            Z.lxor (k0 key) 0x6c7967656e657261,
            Z.lxor (k1 key) 0x7465646279746573) in
  let '(v, tail) := sip_words bs v in
  let b := Z.lor (u64 (Z.shiftl (Z.of_nat (length bs)) 56)) (le_word tail) in
  let '(v0, v1, v2, v3) := sip_word b v in
  let v := single_round (single_round (single_round
             (v0, v1, Z.lxor v2 0xff, v3))) in
  let '(v0, v1, v2, v3) := v in
  Z.lxor (Z.lxor v0 v1) (Z.lxor v2 v3).

Definition bytes_of (s : string) : list Z :=
  map (fun c => Z.of_N (N_of_ascii c)) (list_ascii_of_string s).

(** [hash(s)], a [Py_hash_t]: the empty string hashes to 0, and -1 is
    kept for errors. *)
Definition hash_str (key : siphash_key) (s : string) : Z :=
  match s with
  | EmptyString => 0
  | _ =>
      let x := siphash13 key (bytes_of s) in
      let x := if x <? 2 ^ 63 then x else x - 2 ^ 64 in
      if x =? -1 then -2 else x
  end.

(** The key under [PYTHONHASHSEED=seed]: zero for the seed 0, else the
    first bytes of a linear congruential generator; without the variable,
    random bytes of the system. *)
Fixpoint lcg_urandom (n : nat) (x : Z) : list Z :=
  match n with
  | O => []
  | S n' =>
      let x := (x * 214013 + 2531011) mod 2 ^ 32 in
      Z.land (Z.shiftr x 16) 255 :: lcg_urandom n' x
  end.

Definition key_of_seed (seed : Z) : siphash_key :=
  if seed =? 0 then SipKey 0 0
  else
    let bs := lcg_urandom 16 seed in
    SipKey (le_word (firstn 8 bs)) (le_word (skipn 8 bs)).

(** A set is an open-addressing table of [mask + 1] slots, here the 8 of
    a new set.  A key goes to the slot of the low bits of its hash; when
    another key is there, to the next slot of the probe sequence. *)
Definition set_mask : Z := 7.
Definition perturb_shift : Z := 5.

Definition set_table : Type := list (option (Z * string)).

Fixpoint set_probe (fuel : nat) (table : set_table) (hash : Z) (key : string)
    (i perturb : Z) : option set_table :=
  match fuel with
  | O => None
  | S fuel' =>
      match table !! Z.to_nat i with
      | Some None => Some (<[Z.to_nat i := Some (hash, key)]> table)
      | Some (Some (h, k)) =>
          if (h =? hash) && String.eqb k key then Some table
          else
            let perturb := Z.shiftr perturb perturb_shift in
            set_probe fuel' table hash key
              (Z.land (i * 5 + 1 + perturb) set_mask) perturb
      | None => None
      end
  end.

(** [set_add_entry], on a table that holds fewer than five keys, so that
    it is not resized. *)
Definition set_add (table : set_table) (hash : Z) (key : string)
  : option set_table :=
  set_probe 32 table hash key (Z.land hash set_mask) (u64 hash).

Fixpoint set_add_all (key : siphash_key) (table : set_table)
    (vs : list value) : option set_table :=
  match vs with
  | [] => Some table
  | VStr s :: vs' =>
      match set_add table (hash_str key s) s with
      | Some table' => set_add_all key table' vs'
      | None => None
      end
  | _ => None
  end.

Fixpoint table_keys (table : set_table) : list value :=
  match table with
  | [] => []
  | Some (_, k) :: table' => VStr k :: table_keys table'
  | None :: table' => table_keys table'
  end.

(** The elements of a set in the order of iteration, which is that of
    the slots.  Modelled for the set of a display of one or two elements
    that are all [str]: a longer display of constants is built by another
    route, and other hashes are not modelled. *)
Definition set_iteration (key : siphash_key) (vs : list value)
  : option (list value) :=
  if (length vs <=? 2)%nat then
    option_map table_keys (set_add_all key (replicate 8 None) vs)
  else None.

(** [*v] in a list display: the items of [v], in the order of iteration. *)
Definition not_iterable (v : value) : exn :=
  Raised TypeError
    ("Value after * must be an iterable, not " ++ type_name v).

Definition iterate (key : siphash_key) (v : value) : res (list value) :=
  match v with
  | VList vs => Ret vs
  | VSet vs =>
      match set_iteration key vs with
      | Some l => Ret l
      | None => Unmodelled
      end
  | VStr s => Ret (map (fun c => VStr (String c "")) (list_ascii_of_string s))
  | VDict items => Ret (map (fun kv => VStr (fst kv)) items)
  | VInt _ | VFloat _ | VComplex _ _ | VNone => Exc (not_iterable v)
  end.

Definition short_circuit (op : boolop) (v : value) : bool :=
  match op with
  | And => negb (truthy v)
  | Or => truthy v
  end.

(** The items of a call or of a display, evaluated from left to right,
    each in the namespace left by the one before. *)
Section EvalList.
Variable ev : expr -> gmap string value -> res value * gmap string value.
Variable iter : value -> res (list value).

Fixpoint eval_list (es : list expr) (l : gmap string value)
  : res (list value) * gmap string value :=
  match es with
  | [] => (Ret [], l)
  | e :: es' =>
      match ev e l with
      | (Ret v, l') =>
          match eval_list es' l' with
          | (Ret vs, l'') => (Ret (v :: vs), l'')
          | r => r
          end
      | (Exc x, l') => (Exc x, l')
      | (Unmodelled, l') => (Unmodelled, l')
      end
  end.

(** One element of a list display: the values it adds to the list. *)
Definition eval_element (e : expr) (l : gmap string value)
  : res (list value) * gmap string value :=
  match ev (element_value e) l with
  | (Ret v, l') => (if is_starred e then iter v else Ret [v], l')
  | (Exc x, l') => (Exc x, l')
  | (Unmodelled, l') => (Unmodelled, l')
  end.

(** The elements of a list display, from left to right: a starred one is
    iterated as soon as it is evaluated. *)
Fixpoint eval_elements (es : list expr) (l : gmap string value)
  : res (list value) * gmap string value :=
  match es with
  | [] => (Ret [], l)
  | e :: es' =>
      match eval_element e l with
      | (Ret vs1, l') =>
          match eval_elements es' l' with
          | (Ret vs, l'') => (Ret (vs1 ++ vs)%list, l'')
          | r => r
          end
      | (Exc x, l') => (Exc x, l')
      | (Unmodelled, l') => (Unmodelled, l')
      end
  end.
End EvalList.

(** The result of an evaluation and the local namespace it leaves. *)
Fixpoint eval_expr (key : siphash_key) (globals : gmap string value)
    (e : expr) (locals : gmap string value) {struct e}
  : res value * gmap string value :=
  match e with
  | Constant c => (Ret (constant_value c), locals)
  | Name id => (load_name globals locals id, locals)
  | UnaryOp op a =>
      match eval_expr key globals a locals with
      | (Ret v, l1) => (unary_op op v, l1)
      | r => r
      end
  | BinOp a op b =>
      match eval_expr key globals a locals with
      | (Ret va, l1) =>
          match eval_expr key globals b l1 with
          | (Ret vb, l2) => (binary_op op va vb, l2)
          | r => r
          end
      | r => r
      end
  | BoolOp op a b =>
      match eval_expr key globals a locals with
      | (Ret va, l1) =>
          if short_circuit op va then (Ret va, l1)
          else eval_expr key globals b l1
      | r => r
      end
  | NamedExpr target a =>
      match eval_expr key globals a locals with
      | (Ret v, l1) => (Ret v, <[target := v]> l1)
      | r => r
      end
  | Call f args =>
      match eval_expr key globals f locals with
      | (Ret vf, l1) =>
          match eval_list (eval_expr key globals) args l1 with
          | (Ret _, l2) => (Exc (not_callable vf), l2)
          | (Exc x, l2) => (Exc x, l2)
          | (Unmodelled, l2) => (Unmodelled, l2)
          end
      | r => r
      end
  | SetDisplay elts =>
      match eval_list (eval_expr key globals) elts locals with
      | (Ret vs, l1) => (build_set vs, l1)
      | (Exc x, l1) => (Exc x, l1)
      | (Unmodelled, l1) => (Unmodelled, l1)
      end
  | DictDisplay => (Ret (VDict []), locals)
  | ListDisplay elts =>
      match eval_elements (eval_expr key globals) (iterate key) elts locals with
      | (Ret vs, l1) => (Ret (VList vs), l1)
      | (Exc x, l1) => (Exc x, l1)
      | (Unmodelled, l1) => (Unmodelled, l1)
      end
  | Starred _ => (Unmodelled, locals)
  end.

(** ** The interpreter state

    Dicts are objects: [heap] holds the dicts used as namespaces, addressed
    by their index, [stdout] the text written so far, and [hash_secret]
    the key that the process hashes strings with.  The state is threaded
    through every call, so that what one call leaves behind is there for
    the next one to see. *)

Record world := World {
  heap : list (gmap string value);
  stdout : string;
  hash_secret : siphash_key
}.

Definition new_dict (d : gmap string value) (w : world) : nat * world :=
  (length (heap w), World (heap w ++ [d]) (stdout w) (hash_secret w)).

Definition newline : string := String (ascii_of_N 10) "".

Definition print (s : string) (w : world) : world :=
  World (heap w) (stdout w ++ s ++ newline) (hash_secret w).

(** The model of [eval(source, globals, locals)] on two distinct dict
    objects, for the fragment. *)
Definition py_eval (source : string) (globals locals : nat) (w : world)
  : res value * world :=
  if (globals =? locals)%nat then (Unmodelled, w)
  else
    match heap w !! globals, heap w !! locals with
    | Some g, Some l =>
        match parse source with
        | Ret e =>
            let '(r, l') := eval_expr (hash_secret w) g e l in
            (r, World (<[locals := l']> (heap w)) (stdout w) (hash_secret w))
        | Exc x => (Exc x, w)
        | Unmodelled => (Unmodelled, w)
        end
    | _, _ => (Unmodelled, w)
    end.

(** [str(e)]; a [SyntaxError] of [eval] carries the file name ["<string>"]
    and the line, which [str] appends. *)
Definition str_exn (e : exn) : string :=
  match e with
  | Raised SyntaxError msg => msg ++ " (<string>, line 1)"
  | Raised _ msg => msg
  | SysExit code => string_of_Z code
  end.

(** ** The program

    [eval] is a builtin of the host, not code of the program: the program
    is written over an evaluator [host_eval], which takes the source, the
    two dicts and the state, and gives an outcome and a state.  [py_eval]
    is the evaluator that the properties of particular expressions are
    proved with. *)

Definition success_payload (result : value) : value :=
  VDict [("status", VStr "success"); ("result", result)].

Definition error_payload (message : string) : value :=
  VDict [("status", VStr "error"); ("message", VStr message)].

(** [except Exception as e: return json.dumps(...)]: an exception that is
    not an [Exception] passes through. *)
Definition handler (e : exn) : res string :=
  if is_Exception (class_of e)
  then json_dumps (error_payload (str_exn e))
  else Exc e.

Definition usage : string := "Usage: ./run_skill.sh '<expression>'".

Section Program.
Variable host_eval : string -> nat -> nat -> world -> res value * world.

Definition calculate (expression : string) (w : world) : res string * world :=
  let '(allowed_names, w) := new_dict {[ "__builtins__" := VDict [] ]} w in
  let '(locals, w) := new_dict ∅ w in
  match host_eval expression allowed_names locals w with
  | (Ret result, w) =>
      match json_dumps (success_payload result) with
      | Ret s => (Ret s, w)
      | Exc e => (handler e, w)
      | Unmodelled => (Unmodelled, w)
      end
  | (Exc e, w) => (handler e, w)
  | (Unmodelled, w) => (Unmodelled, w)
  end.

(** The body under [if __name__ == "__main__"], on [sys.argv]. *)
Definition main (argv : list string) (w : world) : res unit * world :=
  if negb (length argv =? 2)%nat then
    match json_dumps (error_payload usage) with
    | Ret s => (Exc (SysExit 1), print s w)
    | Exc e => (Exc e, w)
    | Unmodelled => (Unmodelled, w)
    end
  else
    match calculate (nth 1 argv "") w with
    | (Ret s, w) => (Ret tt, print s w)
    | (Exc e, w) => (Exc e, w)
    | (Unmodelled, w) => (Unmodelled, w)
    end.

End Program.

(** The exit status of the process: 0 at the end of the script, the code
    of [sys.exit], 1 with a traceback for any other exception. *)
Definition exit_status (r : res unit) : option Z :=
  match r with
  | Ret _ => Some 0
  | Exc (SysExit code) => Some code
  | Exc (Raised _ _) => Some 1
  | Unmodelled => None
  end.

(** A process at start-up, with its key. *)
Definition process_start (key : siphash_key) : world := World [] "" key.

Definition initial_world : world := process_start (key_of_seed 0).

(** ** Two expressions that leave the restricted context

    An empty ["__builtins__"] restricts the names of an expression, not
    the attributes of its values.  [().__reduce_ex__(2)] is a tuple whose
    first item is the function [copyreg.__newobj__]; the [__globals__] of
    a function are the globals of its module, and the ["__builtins__"]
    among them is the dict of the real builtins.  Attribute access and
    subscripts are outside the fragment of [py_eval]; what [eval] does on
    the two expressions is recorded as a property of an evaluator, as
    CPython 3.11 shows it: the first writes a line and returns [None],
    the second raises [SystemExit(7)]. *)

Definition print_through_builtins : string :=
  "().__reduce_ex__(2)[0].__globals__['__builtins__']['print']('x')".

Definition exit_through_builtins : string :=
  "().__reduce_ex__(2)[0].__globals__['__builtins__']['__import__']('sys').exit(7)".

Definition reaches_builtins
    (host_eval : string -> nat -> nat -> world -> res value * world) : Prop :=
  (forall (globals locals : nat) (w : world),
      host_eval print_through_builtins globals locals w
      = (Ret VNone, print "x" w)) /\
  (forall (globals locals : nat) (w : world),
      host_eval exit_through_builtins globals locals w
      = (Exc (SysExit 7), w)).

(** [py_eval], with the two expressions evaluated as above. *)
Definition leaky_eval (source : string) (globals locals : nat) (w : world)
  : res value * world :=
  if String.eqb source print_through_builtins then (Ret VNone, print "x" w)
  else if String.eqb source exit_through_builtins then (Exc (SysExit 7), w)
  else py_eval source globals locals w.

(** ** The two shapes of the output *)

Definition json_object2 (k1 v1 k2 v2 : string) : string :=
  "{" ++ json_string k1 ++ ": " ++ v1 ++ ", " ++ json_string k2 ++ ": " ++ v2
  ++ "}".

(** The Success variant, around the JSON text of the value. *)
Definition success_text (value_text : string) : string :=
  json_object2 "status" (json_string "success") "result" value_text.

(** The Failure variant, around a message. *)
Definition error_text (message : string) : string :=
  json_object2 "status" (json_string "error") "message" (json_string message).

Definition is_success (r : res string) : Prop :=
  exists v text, json_dumps v = Ret text /\ r = Ret (success_text text).

Definition is_failure (r : res string) : Prop :=
  exists message, r = Ret (error_text message).

(** ** What a call computes

    [evaluation] is the call of the evaluator that [calculate] makes: on
    the source, with two dicts that it has just created.  [respond] is the
    rest of the body of [calculate].  [evaluate] is what [py_eval] returns
    in such a call. *)

Definition fresh_globals : gmap string value :=
  {[ "__builtins__" := VDict [] ]}.

Definition evaluation
    (host_eval : string -> nat -> nat -> world -> res value * world)
    (expression : string) (w : world) : res value * world :=
  host_eval expression (length (heap w)) (S (length (heap w)))
    (World (heap w ++ [fresh_globals; ∅]) (stdout w) (hash_secret w)).

Definition respond (r : res value) : res string :=
  match r with
  | Ret result =>
      match json_dumps (success_payload result) with
      | Ret s => Ret s
      | Exc e => handler e
      | Unmodelled => Unmodelled
      end
  | Exc e => handler e
  | Unmodelled => Unmodelled
  end.

Definition evaluate (key : siphash_key) (expression : string) : res value :=
  match parse expression with
  | Ret e => fst (eval_expr key fresh_globals e ∅)
  | Exc x => Exc x
  | Unmodelled => Unmodelled
  end.

(** An error: an instance of a class that derives from [Exception]. *)
Definition ordinary (x : exn) : Prop := is_Exception (class_of x) = true.

(** ** Texts *)

Definition is_printable (c : ascii) : bool :=
  let n := N_of_ascii c in ((32 <=? n) && (n <=? 126))%N.

(** A text of printable ASCII characters only. *)
Definition plain (s : string) : bool :=
  forallb is_printable (list_ascii_of_string s).

Definition one_line (s : string) : Prop :=
  ~ In (ascii_of_N 10) (list_ascii_of_string s).

(** ** Arithmetic expressions and their mathematical value

    The expressions of the specification: integer literals combined with
    the unary and binary [+ -], [* /] and [**].  [math_value] is the
    value as a rational number, where it is one: a division by zero has
    none, and a power is taken to an integer exponent only. *)





(** The value of an expression without division, whose exponents are not
    negative and whose powers stay within [max_int_bits]: an integer. *)
Fixpoint int_value (e : expr) : option Z :=
  match e with
  | Constant (CInt n) => Some n
  | UnaryOp UAdd a => int_value a
  | UnaryOp USub a => option_map Z.opp (int_value a)
  | BinOp a op b =>
      match int_value a, int_value b with
      | Some x, Some y =>
          match op with
          | Add => Some (x + y)
          | Sub => Some (x - y)
          | Mult => Some (x * y)
          | Div => None
          | Pow => if power_fits x y then Some (x ^ y) else None
          end
      | _, _ => None
      end
  | _ => None
  end.

(** ** The identifiers of an expression

    [names_in]: every identifier the expression refers to.  [looked_up]:
    those in a position that is evaluated whenever the expression is,
    that is outside the right operand of [and] and [or].  [targets]: the
    identifiers that the expression itself binds. *)

Fixpoint names_in (e : expr) : list string :=
  match e with
  | Constant _ | DictDisplay => []
  | Name id => [id]
  | UnaryOp _ a | NamedExpr _ a | Starred a => names_in a
  | BinOp a _ b | BoolOp _ a b => names_in a ++ names_in b
  | Call f args => names_in f ++ flat_map names_in args
  | SetDisplay elts | ListDisplay elts => flat_map names_in elts
  end%list.

Fixpoint looked_up (e : expr) : list string :=
  match e with
  | Constant _ | DictDisplay => []
  | Name id => [id]
  | UnaryOp _ a | NamedExpr _ a | Starred a => looked_up a
  | BinOp a _ b => looked_up a ++ looked_up b
  | BoolOp _ a _ => looked_up a
  | Call f args => looked_up f ++ flat_map looked_up args
  | SetDisplay elts | ListDisplay elts => flat_map looked_up elts
  end%list.

Fixpoint targets (e : expr) : list string :=
  match e with
  | Constant _ | DictDisplay | Name _ => []
  | UnaryOp _ a | Starred a => targets a
  | NamedExpr target a => target :: targets a
  | BinOp a _ b | BoolOp _ a b => targets a ++ targets b
  | Call f args => targets f ++ flat_map targets args
  | SetDisplay elts | ListDisplay elts => flat_map targets elts
  end%list.

(** An element of a list display is starred somewhere in [e]. *)
Fixpoint unpacks (e : expr) : bool :=
  match e with
  | Constant _ | Name _ | DictDisplay => false
  | UnaryOp _ a | NamedExpr _ a => unpacks a
  | BinOp a _ b | BoolOp _ a b => unpacks a || unpacks b
  | Call f args => unpacks f || existsb unpacks args
  | SetDisplay elts | ListDisplay elts => existsb unpacks elts
  | Starred _ => true
  end.

(** The only names an evaluation binds are the targets of the expression. *)
Definition binds_only_targets (key : siphash_key) (g : gmap string value)
    (e : expr) : Prop :=
  forall (l : gmap string value) r l' (id : string),
    eval_expr key g e l = (r, l') ->
    l !! id = None -> ~ In id (targets e) -> l' !! id = None.

(** The evaluation does not return when it has to look [id] up and
    nothing binds it. *)
Definition raises_when_looked_up (key : siphash_key)
    (g : gmap string value) (id : string) (e : expr) : Prop :=
  forall (l : gmap string value),
    l !! id = None -> In id (looked_up e) -> ~ In id (targets e) ->
    forall v l', eval_expr key g e l <> (Ret v, l').

(** ** Induction on expressions and values *)

Section ExprInduction.
Variable P : expr -> Prop.
Hypothesis HConstant : forall c, P (Constant c).
Hypothesis HName : forall id, P (Name id).
Hypothesis HUnaryOp : forall op a, P a -> P (UnaryOp op a).
Hypothesis HBinOp : forall a op b, P a -> P b -> P (BinOp a op b).
Hypothesis HBoolOp : forall op a b, P a -> P b -> P (BoolOp op a b).
Hypothesis HNamedExpr : forall target a, P a -> P (NamedExpr target a).
Hypothesis HCall : forall f args, P f -> Forall P args -> P (Call f args).
Hypothesis HSetDisplay : forall elts, Forall P elts -> P (SetDisplay elts).
Hypothesis HDictDisplay : P DictDisplay.
Hypothesis HListDisplay :
  forall elts, Forall (fun e => P (element_value e)) elts ->
               P (ListDisplay elts).
Hypothesis HStarred : forall a, P a -> P (Starred a).

Fixpoint expr_induction (e : expr) : P e :=
  let all :=
    fix all (es : list expr) : Forall P es :=
      match es with
      | [] => List.Forall_nil P
      | e' :: es' =>
          List.Forall_cons P e' es' (expr_induction e') (all es')
      end in
  match e with
  | Constant c => HConstant c
  | Name id => HName id
  | UnaryOp op a => HUnaryOp op a (expr_induction a)
  | BinOp a op b => HBinOp a op b (expr_induction a) (expr_induction b)
  | BoolOp op a b => HBoolOp op a b (expr_induction a) (expr_induction b)
  | NamedExpr target a => HNamedExpr target a (expr_induction a)
  | Call f args => HCall f args (expr_induction f) (all args)
  | SetDisplay elts => HSetDisplay elts (all elts)
  | DictDisplay => HDictDisplay
  | ListDisplay elts =>
      HListDisplay elts
        ((fix values (es : list expr)
            : Forall (fun e => P (element_value e)) es :=
            match es with
            | [] => List.Forall_nil _
            | e' :: es' =>
                List.Forall_cons (fun e => P (element_value e)) e' es'
                  (expr_induction (element_value e'))
                  (values es')
            end) elts)
  | Starred a => HStarred a (expr_induction a)
  end.
End ExprInduction.

Section ValueInduction.
Variable P : value -> Prop.
Hypothesis HInt : forall n, P (VInt n).
Hypothesis HFloat : forall f, P (VFloat f).
Hypothesis HComplex : forall re im, P (VComplex re im).
Hypothesis HStr : forall s, P (VStr s).
Hypothesis HSet : forall elts, P (VSet elts).
Hypothesis HDict :
  forall items, Forall (fun kv => P (snd kv)) items -> P (VDict items).
Hypothesis HList : forall elts, Forall P elts -> P (VList elts).
Hypothesis HNone : P VNone.

Fixpoint value_induction (v : value) : P v :=
  match v with
  | VInt n => HInt n
  | VFloat f => HFloat f
  | VComplex re im => HComplex re im
  | VStr s => HStr s
  | VSet elts => HSet elts
  | VDict items =>
      HDict items
        ((fix all (l : list (string * value))
            : Forall (fun kv => P (snd kv)) l :=
            match l with
            | [] => List.Forall_nil _
            | kv :: l' =>
                List.Forall_cons (fun kv => P (snd kv)) kv l'
                  (value_induction (snd kv)) (all l')
            end) items)
  | VList elts =>
      HList elts
        ((fix all (l : list value) : Forall P l :=
            match l with
            | [] => List.Forall_nil P
            | x :: l' =>
                List.Forall_cons P x l' (value_induction x) (all l')
            end) elts)
  | VNone => HNone
  end.
End ValueInduction.

(** ** Reading escaped text

    What a JSON parser makes of the inside of a string that [json_escape]
    wrote; it serves to show that the escaping loses nothing. *)




(** A text with a decimal point or an exponent, or one of [Infinity] and
    [NaN]: no int is printed so. *)
Definition has_float_mark (s : string) : bool :=
  existsb (fun c => Ascii.eqb c "." || Ascii.eqb c "e" || Ascii.eqb c "N"
                    || Ascii.eqb c "I")
    (list_ascii_of_string s).

(** A character after which a number has ended: not a digit, a letter,
    an underscore or a point. *)
Definition ends_number (c : ascii) : bool :=
  negb (is_digit c || is_name_start c || Ascii.eqb c ".").



(** The table of a new set that holds one key, in the slot [i]. *)
Definition one_key_table (i : nat) (hash : Z) (key : string) : set_table :=
  <[i := Some (hash, key)]> (replicate 8 None).

(** * Properties *)

(** ** The call of the evaluator *)

Section AnyEvaluator.
Variable host_eval : string -> nat -> nat -> world -> res value * world.

(** [calculate] creates its two dicts, calls the evaluator once, and
    turns the outcome into its result. *)
Lemma calculate_evaluation (expression : string) (w : world) :
  calculate host_eval expression w
  = (respond (fst (evaluation host_eval expression w)),
     snd (evaluation host_eval expression w)).
Proof.
  unfold calculate, evaluation, new_dict. cbn [heap stdout].
  fold fresh_globals.
  rewrite length_app, <- app_assoc. cbn [length app].
  rewrite Nat.add_1_r.
  destruct (host_eval _ _ _ _) as [[v | x | ] w']; cbn [fst snd respond];
    try reflexivity.
  destruct (json_dumps (success_payload v)); reflexivity.
Qed.

Lemma main_usage (argv : list string) (w : world) :
  length argv <> 2%nat ->
  main host_eval argv w = (Exc (SysExit 1), print (error_text usage) w).
Proof.
  intros Hlen. unfold main.
  destruct (length argv =? 2)%nat eqn:E.
  - apply Nat.eqb_eq in E. contradiction.
  - reflexivity.
Qed.

Lemma main_output (argv : list string) (w : world) (text : string) :
  length argv = 2%nat ->
  fst (calculate host_eval (nth 1 argv "") w) = Ret text ->
  main host_eval argv w
  = (Ret tt, print text (snd (calculate host_eval (nth 1 argv "") w))).
Proof.
  intros Hlen Hc. unfold main. rewrite Hlen. cbn [Nat.eqb negb].
  destruct (calculate host_eval (nth 1 argv "") w) as [r w'].
  cbn [fst snd] in *. subst r. reflexivity.
Qed.

End AnyEvaluator.

(** ** The namespaces of a call are its own *)

Lemma lookup_new_dicts (h : list (gmap string value))
    (g l : gmap string value) :
  (h ++ [g; l])%list !! length h = Some g /\
  (h ++ [g; l])%list !! S (length h) = Some l.
Proof.
  split.
  - apply list_lookup_middle. reflexivity.
  - rewrite lookup_app_r by lia.
    replace (S (length h) - length h)%nat with 1%nat by lia. reflexivity.
Qed.

(** In a call of [calculate], [py_eval] returns what [evaluate] says and
    writes nothing. *)
Lemma py_eval_evaluation (expression : string) (w : world) :
  fst (evaluation py_eval expression w)
  = evaluate (hash_secret w) expression /\
  stdout (snd (evaluation py_eval expression w)) = stdout w.
Proof.
  unfold evaluation, py_eval, evaluate. cbn [heap stdout hash_secret].
  destruct (lookup_new_dicts (heap w) fresh_globals ∅) as [Hg Hl].
  rewrite Hg, Hl.
  replace (length (heap w) =? S (length (heap w)))%nat with false
    by (symmetry; apply Nat.eqb_neq; lia).
  destruct (parse expression) as [e | x | ]; try (split; reflexivity).
  destruct (eval_expr _ fresh_globals e ∅) as [r l']. split; reflexivity.
Qed.

Lemma calculate_result (expression : string) (w : world) :
  fst (calculate py_eval expression w)
  = respond (evaluate (hash_secret w) expression).
Proof.
  rewrite calculate_evaluation. cbn [fst].
  rewrite (proj1 (py_eval_evaluation expression w)). reflexivity.
Qed.

Lemma calculate_stdout (expression : string) (w : world) :
  stdout (snd (calculate py_eval expression w)) = stdout w.
Proof.
  rewrite calculate_evaluation. cbn [snd]. apply py_eval_evaluation.
Qed.

(** A call leaves its two dicts in the heap, and nothing else changes. *)
Lemma calculate_heap (expression : string) (w : world) :
  exists g l : gmap string value,
    heap (snd (calculate py_eval expression w)) = (heap w ++ [g; l])%list.
Proof.
  rewrite calculate_evaluation. cbn [snd].
  unfold evaluation, py_eval. cbn [heap stdout hash_secret].
  destruct (lookup_new_dicts (heap w) fresh_globals ∅) as [Hg Hl].
  rewrite Hg, Hl.
  replace (length (heap w) =? S (length (heap w)))%nat with false
    by (symmetry; apply Nat.eqb_neq; lia).
  destruct (parse expression) as [e | x | ];
    try (exists fresh_globals, ∅; reflexivity).
  destruct (eval_expr _ fresh_globals e ∅) as [r l'].
  exists fresh_globals, l'. cbn [snd heap].
  rewrite insert_app_r_alt by lia.
  replace (S (length (heap w)) - length (heap w))%nat with 1%nat by lia.
  reflexivity.
Qed.

Lemma main_result (argv : list string) (w : world) (text : string) :
  length argv = 2%nat ->
  fst (calculate py_eval (nth 1 argv "") w) = Ret text ->
  fst (main py_eval argv w) = Ret tt /\
  stdout (snd (main py_eval argv w)) = stdout w ++ text ++ newline.
Proof.
  intros Hlen Hc. rewrite (main_output py_eval argv w text Hlen Hc).
  cbn [fst snd print stdout]. rewrite calculate_stdout.
  split; reflexivity.
Qed.

(** ** Every exception of an evaluation is an [Exception] *)

Lemma parse_exception (source : string) (x : exn) :
  parse source = Exc x -> x = invalid_syntax.
Proof.
  unfold parse. intros H.
  destruct (tokenize source) as [[| t ts] |]; try discriminate.
  destruct (_ <=? _)%nat; try discriminate.
  destruct (parse_disjunction _ _ _) as [e [| t' ts'] | | ];
    try discriminate.
  injection H as <-. reflexivity.
Qed.

Lemma binary_op_exception (op : operator) (a b : value) (x : exn) :
  binary_op op a b = Exc x -> ordinary x.
Proof.
  unfold binary_op, int_op, float_op, complex_op, as_float, res_bind.
  intros H.
  repeat match type of H with
         | context [match ?t with _ => _ end] => is_var t; destruct t
         | context [if ?t then _ else _] =>
             lazymatch t with
             | context [match _ with _ => _ end] => fail
             | _ => destruct t
             end
         end;
    try discriminate; injection H as <-; reflexivity.
Qed.

Lemma unary_op_exception (op : unaryop) (a : value) (x : exn) :
  unary_op op a = Exc x -> ordinary x.
Proof.
  unfold unary_op. intros H.
  destruct a, op; try discriminate; injection H as <-; reflexivity.
Qed.

Lemma load_name_exception (g l : gmap string value) (id : string) (x : exn) :
  load_name g l id = Exc x -> x = name_error id.
Proof.
  unfold load_name. intros H.
  destruct (l !! id); [discriminate |].
  destruct (g !! id); [discriminate |].
  destruct (g !! "__builtins__") as [[] |]; try discriminate.
  destruct (assoc id items); [discriminate |].
  injection H as <-. reflexivity.
Qed.

Lemma build_set_exception (vs : list value) (x : exn) :
  build_set vs = Exc x -> ordinary x.
Proof.
  unfold build_set. intros H.
  destruct (first_unhashable vs); [| discriminate].
  injection H as <-. reflexivity.
Qed.

Section EvalListFacts.
Variable key : siphash_key.
Variable g : gmap string value.

(** A property of the exceptions of the items is one of the exceptions
    of the list. *)
Lemma eval_list_exception (Q : exn -> Prop) (es : list expr) :
  Forall (fun e => forall l x l', eval_expr key g e l = (Exc x, l') -> Q x) es ->
  forall l x l', eval_list (eval_expr key g) es l = (Exc x, l') -> Q x.
Proof.
  induction 1 as [| e es He Hes IH]; intros l x l' H; cbn in H.
  - discriminate.
  - destruct (eval_expr key g e l) as [[v | x1 | ] l1] eqn:E.
    + destruct (eval_list (eval_expr key g) es l1) as [[vs | x2 | ] l2] eqn:E2;
        try discriminate.
      injection H as <- <-. eapply IH. exact E2.
    + injection H as <- <-. eapply He. exact E.
    + discriminate.
Qed.

Lemma eval_elements_exception (Q : exn -> Prop) (es : list expr) :
  Forall (fun e => forall l x l',
              eval_expr key g (element_value e) l = (Exc x, l') -> Q x) es ->
  (forall v x, iterate key v = Exc x -> Q x) ->
  forall l x l',
    eval_elements (eval_expr key g) (iterate key) es l = (Exc x, l') -> Q x.
Proof.
  intros Hes Hiter.
  induction Hes as [| e es He Hes IH]; intros l x l' H; cbn in H.
  - discriminate.
  - unfold eval_element in H.
    destruct (eval_expr key g (element_value e) l) as [[v | x1 | ] l1] eqn:E.
    + destruct (if is_starred e then iterate key v else Ret [v])
        as [vs1 | x1 | ] eqn:Ei.
      * destruct (eval_elements _ _ es l1) as [[vs | x2 | ] l2] eqn:E2;
          try discriminate.
        injection H as <- <-. eapply IH. exact E2.
      * injection H as <- <-.
        destruct (is_starred e); [eapply Hiter, Ei | discriminate].
      * discriminate.
    + injection H as <- <-. eapply He. exact E.
    + discriminate.
Qed.
End EvalListFacts.

Lemma iterate_exception (key : siphash_key) (v : value) (x : exn) :
  iterate key v = Exc x -> ordinary x.
Proof.
  destruct v; cbn; intros H; try discriminate;
    try (injection H as <-; reflexivity).
  destruct (set_iteration key elts); discriminate.
Qed.

Lemma eval_expr_exception (key : siphash_key) (g : gmap string value)
    (e : expr) :
  forall l x l', eval_expr key g e l = (Exc x, l') -> ordinary x.
Proof.
  induction e as [c | id | op a IHa | a op b IHa IHb | op a b IHa IHb
                 | target a IHa | f args IHf IHargs | elts IHelts |
                 | elts IHelts | a IHa ]
    using expr_induction; intros l x l' H; cbn in H.
  - discriminate.
  - injection H as H _. apply load_name_exception in H. subst. reflexivity.
  - destruct (eval_expr key g a l) as [[v | x1 | ] l1] eqn:E.
    + injection H as H _. eapply unary_op_exception; eauto.
    + injection H as <- _. eauto.
    + discriminate.
  - destruct (eval_expr key g a l) as [[va | x1 | ] l1] eqn:Ea.
    + destruct (eval_expr key g b l1) as [[vb | x2 | ] l2] eqn:Eb.
      * injection H as H _. eapply binary_op_exception; eauto.
      * injection H as <- _. eauto.
      * discriminate.
    + injection H as <- _. eauto.
    + discriminate.
  - destruct (eval_expr key g a l) as [[va | x1 | ] l1] eqn:Ea.
    + destruct (short_circuit op va); [discriminate | eauto].
    + injection H as <- _. eauto.
    + discriminate.
  - destruct (eval_expr key g a l) as [[va | x1 | ] l1] eqn:Ea.
    + discriminate.
    + injection H as <- _. eauto.
    + discriminate.
  - destruct (eval_expr key g f l) as [[vf | x1 | ] l1] eqn:Ef.
    + destruct (eval_list (eval_expr key g) args l1) as [[vs | x2 | ] l2] eqn:El.
      * injection H as <- _. reflexivity.
      * injection H as <- _.
        eapply (eval_list_exception key g ordinary); eauto.
      * discriminate.
    + injection H as <- _. eauto.
    + discriminate.
  - destruct (eval_list (eval_expr key g) elts l) as [[vs | x2 | ] l2] eqn:El.
    + injection H as H _. eapply build_set_exception; eauto.
    + injection H as <- _. eapply (eval_list_exception key g ordinary); eauto.
    + discriminate.
  - discriminate.
  - destruct (eval_elements _ _ elts l) as [[vs | x2 | ] l2] eqn:El;
      try discriminate.
    injection H as <- _.
    eapply (eval_elements_exception key g ordinary); eauto.
    intros v y. apply iterate_exception.
  - discriminate.
Qed.

Lemma evaluate_exception (key : siphash_key) (expression : string)
    (x : exn) :
  evaluate key expression = Exc x -> ordinary x.
Proof.
  unfold evaluate. intros H.
  destruct (parse expression) as [e | x' | ] eqn:Ep; try discriminate.
  - destruct (eval_expr _ fresh_globals e ∅) as [r l'] eqn:Ee.
    cbn in H. subst r. eapply eval_expr_exception; eauto.
  - injection H as <-. apply parse_exception in Ep. subst. reflexivity.
Qed.

(** ** The payloads *)

Lemma dumps_error (message : string) :
  json_dumps (error_payload message) = Ret (error_text message).
Proof. reflexivity. Qed.

Lemma dumps_success (result : value) :
  json_dumps (success_payload result)
  = res_bind (json_dumps result) (fun text => Ret (success_text text)).
Proof.
  unfold success_payload. cbn [json_dumps res_bind].
  destruct (json_dumps result); reflexivity.
Qed.

Lemma json_dumps_exception (v : value) :
  forall x, json_dumps v = Exc x -> exists u, x = not_serializable u.
Proof.
  induction v as [n | f | re im | s | elts | items IH | elts IH | ]
    using value_induction;
    intros x H; cbn in H.
  - destruct (within_digit_limit n); discriminate.
  - destruct (float_json f); discriminate.
  - injection H as <-. eexists. reflexivity.
  - discriminate.
  - injection H as <-. eexists. reflexivity.
  - match type of H with
    | res_bind ?m _ = _ => destruct m as [parts | x' | ] eqn:E
    end; cbn in H; try discriminate.
    injection H as <-. clear - IH E. revert x' E.
    induction IH as [| [k u] items Hu _ IHitems]; intros x' E.
    + discriminate.
    + cbn in E. destruct (json_dumps u) as [su | xu | ] eqn:Eu; cbn in E.
      * match type of E with
        | res_bind ?m _ = _ => destruct m as [rest | xr | ] eqn:Er
        end; cbn in E; try discriminate.
        injection E as <-. eapply IHitems. reflexivity.
      * injection E as <-. eapply Hu. exact Eu.
      * discriminate.
  - match type of H with
    | res_bind ?m _ = _ => destruct m as [parts | x' | ] eqn:E
    end; cbn in H; try discriminate.
    injection H as <-. clear - IH E. revert x' E.
    induction IH as [| u elts Hu _ IHelts]; intros x' E.
    + discriminate.
    + cbn in E. destruct (json_dumps u) as [su | xu | ] eqn:Eu; cbn in E.
      * match type of E with
        | res_bind ?m _ = _ => destruct m as [rest | xr | ] eqn:Er
        end; cbn in E; try discriminate.
        injection E as <-. eapply IHelts. reflexivity.
      * injection E as <-. eapply Hu. reflexivity.
      * discriminate.
  - discriminate.
Qed.

Lemma not_serializable_ordinary (u : value) : ordinary (not_serializable u).
Proof. reflexivity. Qed.

Lemma handler_ordinary (x : exn) :
  ordinary x -> handler x = Ret (error_text (str_exn x)).
Proof.
  unfold ordinary, handler. intros ->. apply dumps_error.
Qed.

Lemma respond_exception (x : exn) :
  ordinary x -> respond (Exc x) = Ret (error_text (str_exn x)).
Proof. intros H. cbn [respond]. apply handler_ordinary, H. Qed.

Lemma respond_never_raises (r : res value) (x : exn) :
  (forall y, r = Exc y -> ordinary y) -> respond r <> Exc x.
Proof.
  intros Hr. destruct r as [v | y | ]; cbn [respond].
  - destruct (json_dumps (success_payload v)) as [s | y | ] eqn:E;
      try discriminate.
    rewrite dumps_success in E.
    destruct (json_dumps v) as [t | y' | ] eqn:Ev; cbn in E;
      try discriminate.
    injection E as ->. apply json_dumps_exception in Ev as [u ->].
    rewrite handler_ordinary by apply not_serializable_ordinary.
    discriminate.
  - rewrite handler_ordinary by (apply Hr; reflexivity). discriminate.
  - discriminate.
Qed.

(** ** The output is plain text *)

Lemma list_ascii_of_string_app (a b : string) :
  list_ascii_of_string (a ++ b)
  = (list_ascii_of_string a ++ list_ascii_of_string b)%list.
Proof.
  induction a as [| c a IH]; [reflexivity |].
  change (String c a ++ b) with (String c (a ++ b)).
  cbn [list_ascii_of_string]. rewrite IH. reflexivity.
Qed.

Lemma plain_app (a b : string) : plain (a ++ b) = plain a && plain b.
Proof. unfold plain. rewrite list_ascii_of_string_app. apply forallb_app. Qed.

Lemma plain_one_line (s : string) : plain s = true -> one_line s.
Proof.
  unfold plain, one_line. intros H Hin.
  rewrite forallb_forall in H. apply H in Hin. discriminate.
Qed.

Lemma plain_substring (s : string) :
  plain s = true -> forall n m, plain (substring n m s) = true.
Proof.
  induction s as [| c s IH]; intros H n m.
  - destruct n, m; reflexivity.
  - unfold plain in H. cbn in H. apply andb_prop in H as [Hc Hs].
    destruct n as [| n]; cbn.
    + destruct m as [| m]; [reflexivity |].
      unfold plain. cbn. rewrite Hc. apply (IH Hs 0%nat m).
    + apply (IH Hs).
Qed.

Lemma plain_zeros (n : nat) : plain (zeros n) = true.
Proof. induction n as [| n IH]; [reflexivity | exact IH]. Qed.

Lemma plain_uint (d : Decimal.uint) : plain (NilEmpty.string_of_uint d) = true.
Proof. induction d; cbn; try reflexivity; exact IHd. Qed.

Lemma plain_cons (c : ascii) (s : string) :
  plain (String c s) = is_printable c && plain s.
Proof. reflexivity. Qed.

Lemma plain_string_of_Z (n : Z) : plain (string_of_Z n) = true.
Proof.
  unfold string_of_Z, NilZero.string_of_int, NilZero.string_of_uint.
  destruct (Z.to_int n) as [d | d]; destruct d; try reflexivity;
    rewrite ?plain_cons; apply (plain_uint (_ _)).
Qed.

Lemma strip_zeros_rev_forall (P : ascii -> bool) (cs : list ascii) :
  forallb P cs = true -> forallb P (strip_zeros_rev cs) = true.
Proof.
  induction cs as [| c cs IH]; intros H; [reflexivity |].
  cbn in H. apply andb_prop in H as [Hc Hcs].
  cbn. destruct c as [[] [] [] [] [] [] [] []];
    try (cbn; rewrite ?Hc, ?Hcs; reflexivity); apply IH, Hcs.
Qed.

Lemma forallb_rev (P : ascii -> bool) (cs : list ascii) :
  forallb P (rev cs) = forallb P cs.
Proof.
  induction cs as [| c cs IH]; [reflexivity |].
  cbn. rewrite forallb_app, IH. cbn. rewrite andb_true_r. apply andb_comm.
Qed.

Lemma plain_strip_trailing_zeros (s : string) :
  plain s = true -> plain (strip_trailing_zeros s) = true.
Proof.
  unfold plain, strip_trailing_zeros. intros H.
  rewrite list_ascii_of_string_of_list_ascii, forallb_rev.
  apply strip_zeros_rev_forall. rewrite forallb_rev. exact H.
Qed.

Lemma plain_json_escape_char (c : ascii) : plain (json_escape_char c) = true.
Proof. destruct c as [[] [] [] [] [] [] [] []]; reflexivity. Qed.

Lemma plain_json_escape (s : string) : plain (json_escape s) = true.
Proof.
  induction s as [| c s IH]; [reflexivity |].
  cbn [json_escape]. rewrite plain_app, plain_json_escape_char, IH.
  reflexivity.
Qed.

Lemma plain_json_string (s : string) : plain (json_string s) = true.
Proof.
  unfold json_string. rewrite !plain_app, plain_json_escape. reflexivity.
Qed.

Lemma plain_format_digits (ds : string) (n : Z) :
  plain ds = true -> plain (format_digits ds n) = true.
Proof.
  intros H. unfold format_digits.
  repeat match goal with
         | |- context [if ?b then _ else _] => destruct b
         end;
    rewrite ?plain_app, ?plain_zeros, ?plain_string_of_Z, ?H,
      ?(plain_substring ds H);
    reflexivity.
Qed.

Lemma plain_shortest_from (fuel : nat) (incl : bool)
    (Lo X Hi unit_num unit_den n k : Z) (ds : string) (p : Z) :
  shortest_from fuel incl Lo X Hi unit_num unit_den n k = Some (ds, p) ->
  plain ds = true.
Proof.
  revert k. induction fuel as [| fuel IH]; intros k H; cbn in H.
  - discriminate.
  - destruct (candidate incl Lo X Hi unit_num unit_den n k) as [c |].
    + injection H as <- _.
      apply plain_strip_trailing_zeros, plain_string_of_Z.
    + eapply IH, H.
Qed.

Lemma plain_float_repr (f : float) (s : string) :
  float_repr f = Some s -> plain s = true.
Proof.
  destruct f as [[] | [] | | sg m e]; cbn [float_repr]; intros H;
    try (injection H as <-; reflexivity).
  destruct (shortest_digits m e) as [[ds p] |] eqn:E; [| discriminate].
  injection H as <-. unfold shortest_digits in E.
  apply plain_shortest_from in E.
  rewrite plain_app, (plain_format_digits ds p E).
  destruct sg; reflexivity.
Qed.

Lemma plain_float_json (f : float) (s : string) :
  float_json f = Some s -> plain s = true.
Proof.
  destruct f as [sg | [] | | sg m e]; cbn [float_json]; intros H;
    try (injection H as <-; reflexivity);
    eapply plain_float_repr, H.
Qed.

Lemma plain_join (sep : string) (l : list string) :
  plain sep = true -> Forall (fun s => plain s = true) l ->
  plain (join sep l) = true.
Proof.
  intros Hsep H. induction H as [| x l Hx Hl IH]; [reflexivity |].
  destruct l as [| y l]; [exact Hx |].
  change (join sep (x :: y :: l)) with (x ++ sep ++ join sep (y :: l)).
  rewrite !plain_app, Hx, Hsep, IH. reflexivity.
Qed.

Lemma plain_json_dumps (v : value) :
  forall text, json_dumps v = Ret text -> plain text = true.
Proof.
  induction v as [n | f | re im | s | elts | items IH | elts IH | ]
    using value_induction;
    intros text H; cbn in H.
  - destruct (within_digit_limit n); [| discriminate].
    injection H as <-. apply plain_string_of_Z.
  - destruct (float_json f) as [s |] eqn:E; [| discriminate].
    injection H as <-. eapply plain_float_json, E.
  - discriminate.
  - injection H as <-. apply plain_json_string.
  - discriminate.
  - match type of H with
    | res_bind ?m _ = _ => destruct m as [parts | x' | ] eqn:E
    end; cbn in H; try discriminate.
    injection H as <-.
    assert (Hparts : Forall (fun s => plain s = true) parts).
    { clear - IH E. revert parts E.
      induction IH as [| [k u] items Hu _ IHitems]; intros parts E.
      - injection E as <-. constructor.
      - cbn in E. destruct (json_dumps u) as [su | xu | ] eqn:Eu; cbn in E;
          try discriminate.
        match type of E with
        | res_bind ?m _ = _ => destruct m as [rest | xr | ] eqn:Er
        end; cbn in E; try discriminate.
        injection E as <-. constructor.
        + rewrite !plain_app, plain_json_string, (Hu su Eu).
          reflexivity.
        + apply IHitems. reflexivity. }
    rewrite !plain_app, (plain_join ", " parts eq_refl Hparts). reflexivity.
  - match type of H with
    | res_bind ?m _ = _ => destruct m as [parts | x' | ] eqn:E
    end; cbn in H; try discriminate.
    injection H as <-.
    assert (Hparts : Forall (fun s => plain s = true) parts).
    { clear - IH E. revert parts E.
      induction IH as [| u elts Hu _ IHelts]; intros parts E.
      - injection E as <-. constructor.
      - cbn in E. destruct (json_dumps u) as [su | xu | ] eqn:Eu; cbn in E;
          try discriminate.
        match type of E with
        | res_bind ?m _ = _ => destruct m as [rest | xr | ] eqn:Er
        end; cbn in E; try discriminate.
        injection E as <-. constructor.
        + apply Hu. reflexivity.
        + apply IHelts. reflexivity. }
    rewrite !plain_app, (plain_join ", " parts eq_refl Hparts). reflexivity.
  - injection H as <-. reflexivity.
Qed.

Lemma plain_error_text (message : string) : plain (error_text message) = true.
Proof. eapply plain_json_dumps. apply dumps_error. Qed.

Lemma handler_returns (x : exn) (s : string) :
  handler x = Ret s -> s = error_text (str_exn x).
Proof.
  unfold handler. destruct (is_Exception (class_of x)); [| discriminate].
  rewrite dumps_error. intros H. injection H as <-. reflexivity.
Qed.

(** What [calculate] returns is a Success line or a Failure line. *)
Lemma respond_shapes (r : res value) (s : string) :
  respond r = Ret s ->
  (exists v text, json_dumps v = Ret text /\ s = success_text text) \/
  (exists message, s = error_text message).
Proof.
  destruct r as [v | x | ]; cbn [respond]; intros H.
  - destruct (json_dumps (success_payload v)) as [s' | x | ] eqn:E.
    + injection H as ->. rewrite dumps_success in E.
      destruct (json_dumps v) as [text | | ] eqn:Ev; try discriminate.
      injection E as <-. left. exists v, text. split; [exact Ev | reflexivity].
    + right. eexists. apply handler_returns, H.
    + discriminate.
  - right. eexists. apply handler_returns, H.
  - discriminate.
Qed.

Lemma plain_success_text (v : value) (text : string) :
  json_dumps v = Ret text -> plain (success_text text) = true.
Proof.
  intros H. apply (plain_json_dumps (success_payload v)).
  rewrite dumps_success, H. reflexivity.
Qed.

(** ** Arithmetic *)

Lemma success_is_not_error (text message : string) :
  success_text text <> error_text message.
Proof.
  unfold success_text, error_text, json_object2, json_string. intros H.
  vm_compute in H. discriminate H.
Qed.

Lemma Ret_injective {A : Type} (a b : A) : Ret a = Ret b -> a = b.
Proof. intros H. injection H as H. exact H. Qed.

Lemma failure_is_not_success (message : string) :
  ~ is_success (Ret (error_text message)).
Proof.
  intros (v & text & _ & H). apply Ret_injective in H.
  symmetry in H. eapply success_is_not_error, H.
Qed.

Lemma success_is_not_failure (text : string) :
  ~ is_failure (Ret (success_text text)).
Proof.
  intros (m & H). apply Ret_injective in H.
  eapply success_is_not_error, H.
Qed.

(** An integer expression evaluates to its value, in any namespaces. *)
Lemma eval_int_value (key : siphash_key) (g : gmap string value) (e : expr) :
  forall (v : Z) (l : gmap string value),
    int_value e = Some v -> eval_expr key g e l = (Ret (VInt v), l).
Proof.
  induction e as [c | id | op a IHa | a op b IHa IHb | op a b IHa IHb
                 | target a IHa | f args IHf IHargs | elts IHelts |
                 | elts IHelts | a IHa ]
    using expr_induction; intros v l H; cbn in H; try discriminate.
  - destruct c; try discriminate. injection H as <-. reflexivity.
  - destruct op.
    + cbn. rewrite (IHa v l H). reflexivity.
    + destruct (int_value a) as [x |]; [| discriminate].
      injection H as <-. cbn. rewrite (IHa x l eq_refl). reflexivity.
  - destruct (int_value a) as [x |]; [| discriminate].
    destruct (int_value b) as [y |]; [| discriminate].
    cbn. rewrite (IHa x l eq_refl), (IHb y l eq_refl).
    destruct op; cbn; try discriminate; try (injection H as <-; reflexivity).
    destruct (power_fits x y); [| discriminate]. injection H as <-.
    reflexivity.
Qed.



(** ** Identifiers *)

Lemma targets_element_value (e : expr) :
  targets (element_value e) = targets e.
Proof. destruct e; reflexivity. Qed.

Lemma looked_up_element_value (e : expr) :
  looked_up (element_value e) = looked_up e.
Proof. destruct e; reflexivity. Qed.

Section Binding.
Variable key : siphash_key.
Variable g : gmap string value.

Lemma eval_list_binds (es : list expr) :
  Forall (binds_only_targets key g) es ->
  forall (l : gmap string value) r l' (id : string),
    eval_list (eval_expr key g) es l = (r, l') ->
    l !! id = None -> ~ In id (flat_map targets es) -> l' !! id = None.
Proof.
  induction 1 as [| e es He Hes IH]; intros l r l' id H Hl Hid; cbn in H.
  - injection H as _ <-. exact Hl.
  - cbn in Hid. rewrite in_app_iff in Hid.
    destruct (eval_expr key g e l) as [[v | x | ] l1] eqn:E.
    + assert (Hl1 : l1 !! id = None) by (eapply He; eauto).
      destruct (eval_list (eval_expr key g) es l1) as [[vs | x | ] l2] eqn:E2;
        injection H as _ <-; eapply IH; eauto.
    + injection H as _ <-. eapply He; eauto.
    + injection H as _ <-. eapply He; eauto.
Qed.

Lemma eval_elements_binds (es : list expr) :
  Forall (fun e => binds_only_targets key g (element_value e)) es ->
  forall (l : gmap string value) r l' (id : string),
    eval_elements (eval_expr key g) (iterate key) es l = (r, l') ->
    l !! id = None -> ~ In id (flat_map targets es) -> l' !! id = None.
Proof.
  induction 1 as [| e es He Hes IH]; intros l r l' id H Hl Hid; cbn in H.
  - injection H as _ <-. exact Hl.
  - cbn in Hid. rewrite in_app_iff, <- targets_element_value in Hid.
    unfold eval_element in H.
    destruct (eval_expr key g (element_value e) l) as [[v | x | ] l1] eqn:E.
    + assert (Hl1 : l1 !! id = None) by (eapply He; eauto).
      destruct (if is_starred e then iterate key v else Ret [v])
        as [vs1 | x | ].
      * destruct (eval_elements _ _ es l1) as [[vs | x | ] l2] eqn:E2;
          injection H as _ <-; eapply IH; eauto.
      * injection H as _ <-. exact Hl1.
      * injection H as _ <-. exact Hl1.
    + injection H as _ <-. eapply He; eauto.
    + injection H as _ <-. eapply He; eauto.
Qed.

Lemma eval_expr_binds (e : expr) : binds_only_targets key g e.
Proof.
  induction e as [c | id' | op a IHa | a op b IHa IHb | op a b IHa IHb
                 | target a IHa | f args IHf IHargs | elts IHelts |
                 | elts IHelts | a IHa ]
    using expr_induction; intros l r l' id H Hl Hid; cbn in H, Hid;
    rewrite ?in_app_iff in Hid.
  - injection H as _ <-. exact Hl.
  - injection H as _ <-. exact Hl.
  - destruct (eval_expr key g a l) as [[v | x | ] l1] eqn:E;
      injection H as _ <-; eapply IHa; eauto.
  - destruct (eval_expr key g a l) as [[va | x | ] l1] eqn:Ea.
    + assert (Hl1 : l1 !! id = None) by (eapply IHa; eauto).
      destruct (eval_expr key g b l1) as [[vb | x | ] l2] eqn:Eb;
        injection H as _ <-; eapply IHb; eauto.
    + injection H as _ <-. eapply IHa; eauto.
    + injection H as _ <-. eapply IHa; eauto.
  - destruct (eval_expr key g a l) as [[va | x | ] l1] eqn:Ea.
    + assert (Hl1 : l1 !! id = None) by (eapply IHa; eauto).
      destruct (short_circuit op va).
      * injection H as _ <-. exact Hl1.
      * eapply IHb; eauto.
    + injection H as _ <-. eapply IHa; eauto.
    + injection H as _ <-. eapply IHa; eauto.
  - destruct (eval_expr key g a l) as [[va | x | ] l1] eqn:Ea.
    + injection H as _ <-. rewrite lookup_insert_ne by tauto.
      eapply IHa; eauto.
    + injection H as _ <-. eapply IHa; eauto.
    + injection H as _ <-. eapply IHa; eauto.
  - destruct (eval_expr key g f l) as [[vf | x | ] l1] eqn:Ef.
    + assert (Hl1 : l1 !! id = None) by (eapply IHf; eauto).
      destruct (eval_list (eval_expr key g) args l1) as [[vs | x | ] l2] eqn:El;
        injection H as _ <-; eapply eval_list_binds; eauto.
    + injection H as _ <-. eapply IHf; eauto.
    + injection H as _ <-. eapply IHf; eauto.
  - destruct (eval_list (eval_expr key g) elts l) as [[vs | x | ] l2] eqn:El;
      injection H as _ <-; eapply eval_list_binds; eauto.
  - injection H as _ <-. exact Hl.
  - destruct (eval_elements _ _ elts l) as [[vs | x | ] l2] eqn:El;
      injection H as _ <-; eapply eval_elements_binds; eauto.
  - injection H as _ <-. exact Hl.
Qed.

(** An identifier that no namespace binds. *)
Variable id : string.
Hypothesis unbound :
  forall l : gmap string value,
    l !! id = None -> load_name g l id = Exc (name_error id).

Lemma eval_list_looked_up (es : list expr) :
  Forall (raises_when_looked_up key g id) es ->
  forall (l : gmap string value),
    l !! id = None -> In id (flat_map looked_up es) ->
    ~ In id (flat_map targets es) ->
    forall vs l', eval_list (eval_expr key g) es l <> (Ret vs, l').
Proof.
  induction 1 as [| e es He Hes IH]; intros l Hl Hin Hid vs l' H;
    cbn in H, Hin, Hid.
  - contradiction.
  - rewrite in_app_iff in Hin, Hid.
    destruct (eval_expr key g e l) as [[v | x | ] l1] eqn:E; try discriminate.
    destruct Hin as [Hin | Hin].
    + eapply He; eauto.
    + assert (Hl1 : l1 !! id = None) by (eapply eval_expr_binds; eauto).
      destruct (eval_list (eval_expr key g) es l1) as [[vs' | x | ] l2] eqn:E2;
        try discriminate.
      eapply IH; eauto.
Qed.

Lemma eval_elements_looked_up (es : list expr) :
  Forall (fun e => raises_when_looked_up key g id (element_value e)) es ->
  forall (l : gmap string value),
    l !! id = None -> In id (flat_map looked_up es) ->
    ~ In id (flat_map targets es) ->
    forall vs l',
      eval_elements (eval_expr key g) (iterate key) es l <> (Ret vs, l').
Proof.
  induction 1 as [| e es He Hes IH]; intros l Hl Hin Hid vs l' H;
    cbn in H, Hin, Hid.
  - contradiction.
  - rewrite in_app_iff, <- looked_up_element_value in Hin.
    rewrite in_app_iff, <- targets_element_value in Hid.
    unfold eval_element in H.
    destruct (eval_expr key g (element_value e) l) as [[v | x | ] l1] eqn:E;
      try discriminate.
    destruct Hin as [Hin | Hin].
    + eapply He; eauto.
    + assert (Hl1 : l1 !! id = None) by (eapply eval_expr_binds; eauto).
      destruct (if is_starred e then iterate key v else Ret [v])
        as [vs1 | x | ]; try discriminate.
      destruct (eval_elements _ _ es l1) as [[vs' | x | ] l2] eqn:E2;
        try discriminate.
      eapply IH; eauto.
Qed.

Lemma looked_up_raises (e : expr) : raises_when_looked_up key g id e.
Proof.
  induction e as [c | id' | op a IHa | a op b IHa IHb | op a b IHa IHb
                 | target a IHa | f args IHf IHargs | elts IHelts |
                 | elts IHelts | a IHa ]
    using expr_induction; intros l Hl Hin Hid v l' H; cbn in H, Hin, Hid;
    rewrite ?in_app_iff in Hin; rewrite ?in_app_iff in Hid.
  - contradiction.
  - destruct Hin as [-> | []]. rewrite (unbound l Hl) in H. discriminate.
  - destruct (eval_expr key g a l) as [[va | x | ] l1] eqn:E; try discriminate.
    eapply IHa; eauto.
  - destruct (eval_expr key g a l) as [[va | x | ] l1] eqn:Ea; try discriminate.
    destruct Hin as [Hin | Hin].
    + eapply IHa; eauto.
    + assert (Hl1 : l1 !! id = None) by (eapply eval_expr_binds; eauto).
      destruct (eval_expr key g b l1) as [[vb | x | ] l2] eqn:Eb;
        try discriminate.
      eapply IHb; eauto.
  - destruct (eval_expr key g a l) as [[va | x | ] l1] eqn:Ea; try discriminate.
    eapply IHa; eauto.
  - destruct (eval_expr key g a l) as [[va | x | ] l1] eqn:Ea; try discriminate.
    eapply IHa; eauto.
  - destruct (eval_expr key g f l) as [[vf | x | ] l1] eqn:Ef; try discriminate.
    destruct (eval_list (eval_expr key g) args l1) as [[vs | x | ] l2];
      discriminate.
  - destruct (eval_list (eval_expr key g) elts l) as [[vs | x | ] l2] eqn:El;
      try discriminate.
    eapply eval_list_looked_up; eauto.
  - contradiction.
  - destruct (eval_elements _ _ elts l) as [[vs | x | ] l2] eqn:El;
      try discriminate.
    eapply eval_elements_looked_up; eauto.
  - discriminate.
Qed.

End Binding.

(** No call of the fragment returns: no value of the fragment is callable. *)
Lemma call_never_returns (key : siphash_key) (g : gmap string value)
    (f : expr) (args : list expr) (l : gmap string value) (v : value) :
  fst (eval_expr key g (Call f args) l) <> Ret v.
Proof.
  cbn. destruct (eval_expr key g f l) as [[vf | x | ] l1]; try discriminate.
  destruct (eval_list (eval_expr key g) args l1) as [[vs | x | ] l2];
    discriminate.
Qed.

Lemma fresh_globals_unbound (id : string) :
  id <> "__builtins__" ->
  forall l : gmap string value,
    l !! id = None -> load_name fresh_globals l id = Exc (name_error id).
Proof.
  intros Hid l Hl. unfold load_name, fresh_globals. rewrite Hl.
  rewrite lookup_singleton_ne by congruence.
  rewrite lookup_singleton_eq. reflexivity.
Qed.


(** ** Errors are caught *)

Section Catching.
Variable host_eval : string -> nat -> nat -> world -> res value * world.


(** Only what is not an [Exception] leaves [calculate], and only the
    evaluator can have raised it. *)
Lemma calculate_raises (expression : string) (w : world) (x : exn) :
  fst (calculate host_eval expression w) = Exc x ->
  fst (evaluation host_eval expression w) = Exc x /\ ~ ordinary x.
Proof.
  rewrite calculate_evaluation. cbn [fst].
  destruct (fst (evaluation host_eval expression w)) as [v | y | ];
    cbn [respond]; intros H.
  - destruct (json_dumps (success_payload v)) as [s | y | ] eqn:E;
      try discriminate.
    rewrite dumps_success in E.
    destruct (json_dumps v) as [t | y' | ] eqn:Ev; cbn in E;
      try discriminate.
    injection E as ->. apply json_dumps_exception in Ev as [u ->].
    rewrite handler_ordinary in H by apply not_serializable_ordinary.
    discriminate.
  - unfold handler in H. unfold ordinary.
    destruct (is_Exception (class_of y)) eqn:E.
    + rewrite dumps_error in H. discriminate.
    + injection H as <-. split; [reflexivity |]. rewrite E. discriminate.
  - discriminate.
Qed.


End Catching.

Lemma calculate_never_raises (expression : string) (w : world) (x : exn) :
  fst (calculate py_eval expression w) <> Exc x.
Proof.
  intros H. apply calculate_raises in H as [H Hx]. apply Hx.
  rewrite (proj1 (py_eval_evaluation expression w)) in H.
  eapply evaluate_exception, H.
Qed.



(** C9: whatever the evaluator, when the expression evaluates to a value
    that [json.dumps] rejects, [calculate] returns the Failure variant with
    the message of the serialization error: the call to [json.dumps]
    stands inside the [try]. *)
Theorem unserializable_result_is_a_failure
    (host_eval : string -> nat -> nat -> world -> res value * world)
    (expression : string) (w : world) (result : value) (x : exn) :
  fst (evaluation host_eval expression w) = Ret result ->
  json_dumps (success_payload result) = Exc x ->
  fst (calculate host_eval expression w) = Ret (error_text (str_exn x)) /\
  exists u : value, x = not_serializable u.
Proof.
  intros He Hd. rewrite calculate_evaluation. cbn [fst].
  rewrite He. cbn [respond]. rewrite Hd.
  rewrite dumps_success in Hd.
  destruct (json_dumps result) as [t | y | ] eqn:Ev; cbn in Hd;
    try discriminate.
  injection Hd as ->. apply json_dumps_exception in Ev as [u ->].
  split; [| eexists; reflexivity].
  apply handler_ordinary, not_serializable_ordinary.
Qed.

(** The two examples: the set display "{1,2}" and the complex product
    "1j*1j". *)
Lemma unserializable_result_is_a_failure_witness :
  fst (calculate py_eval "{1,2}" initial_world)
  = Ret (error_text "Object of type set is not JSON serializable") /\
  fst (calculate py_eval "1j*1j" initial_world)
  = Ret (error_text "Object of type complex is not JSON serializable").
Proof.
  split.
  - apply (unserializable_result_is_a_failure py_eval "{1,2}" initial_world
             (VSet [VInt 1; VInt 2]) (not_serializable (VSet []))).
    + vm_compute. reflexivity.
    + vm_compute. reflexivity.
  - apply (unserializable_result_is_a_failure py_eval "1j*1j" initial_world
             (VComplex (S754_finite true 4503599627370496 (-52))
                       (S754_zero false))
             (not_serializable (VComplex S754_nan S754_nan))).
    + vm_compute. reflexivity.
    + vm_compute. reflexivity.
Defined.

(** ** Division by zero and malformed syntax *)

(** C4: evaluating "1/0" returns the Failure variant whose message names
    the arithmetic error, "division by zero"; run from the command line the
    process prints that line and ends normally, with exit status 0. *)
Theorem division_by_zero_is_a_failure (w : world) :
  fst (calculate py_eval "1/0" w) = Ret (error_text "division by zero") /\
  evaluate (hash_secret w) "1/0"
  = Exc (Raised ZeroDivisionError "division by zero") /\
  (forall prog : string,
      exit_status (fst (main py_eval [prog; "1/0"] w)) = Some 0 /\
      stdout (snd (main py_eval [prog; "1/0"] w))
      = stdout w ++ error_text "division by zero" ++ newline).
Proof.
  assert (H : fst (calculate py_eval "1/0" w)
              = Ret (error_text "division by zero")).
  { rewrite calculate_result. vm_compute. reflexivity. }
  split; [exact H |]. split; [vm_compute; reflexivity |].
  intros prog.
  destruct (main_result [prog; "1/0"] w _ eq_refl H) as [Hm Hout].
  rewrite Hm, Hout. split; reflexivity.
Qed.

(** C5: evaluating the malformed "2+" returns the Failure variant, with
    the message of the [SyntaxError] that [eval] raises. *)
Theorem malformed_syntax_is_a_failure (w : world) :
  fst (calculate py_eval "2+" w)
  = Ret (error_text "invalid syntax (<string>, line 1)") /\
  parse "2+" = Exc (Raised SyntaxError "invalid syntax").
Proof.
  split.
  - rewrite calculate_result. vm_compute. reflexivity.
  - vm_compute. reflexivity.
Qed.

(** ** The command line *)





(** ** The modelled fragment: one line

    A property of the program run with [py_eval], that is on the
    expressions of the fragment, which has no attribute access. *)

(** Every run that the model covers appends exactly one line to the
    standard output, a text without a newline followed by the newline of
    [print], and the text is the Success shape around the JSON text of a
    value or the Failure shape around a message. *)
Lemma fragment_output_is_one_json_line (argv : list string) (w : world) :
  modelled (fst (main py_eval argv w)) ->
  exists line : string,
    stdout (snd (main py_eval argv w)) = stdout w ++ line ++ newline /\
    one_line line /\
    (is_success (Ret line) \/ is_failure (Ret line)).
Proof.
  intros Hm. destruct (Nat.eq_dec (length argv) 2%nat) as [Hlen | Hlen].
  - destruct (fst (calculate py_eval (nth 1 argv "") w)) as [s | x | ] eqn:Ec.
    + destruct (main_result argv w s Hlen Ec) as [_ Hout].
      exists s. split; [exact Hout |].
      rewrite calculate_result in Ec.
      destruct (respond_shapes _ _ Ec) as [(v & text & Hv & ->) | (m & ->)].
      * split; [eapply plain_one_line, plain_success_text, Hv |].
        left. exists v, text. split; [exact Hv | reflexivity].
      * split; [apply plain_one_line, plain_error_text |].
        right. exists m. reflexivity.
    + exfalso. eapply calculate_never_raises, Ec.
    + exfalso. apply Hm. unfold main. rewrite Hlen. cbn [Nat.eqb negb].
      destruct (calculate py_eval (nth 1 argv "") w) as [r w'].
      cbn [fst] in Ec. subst r. reflexivity.
  - rewrite (main_usage py_eval argv w Hlen). exists (error_text usage).
    split; [reflexivity |].
    split; [apply plain_one_line, plain_error_text |].
    right. exists usage. reflexivity.
Qed.

(** ** Beyond the fragment *)

Lemma append_inv_tail (a b c : string) : a ++ c = b ++ c -> a = b.
Proof.
  intros H. apply (f_equal list_ascii_of_string) in H.
  rewrite !list_ascii_of_string_app in H. apply app_inv_tail in H.
  apply (f_equal string_of_list_ascii) in H.
  rewrite !string_of_list_ascii_of_string in H. exact H.
Qed.

Lemma append_assoc (a b c : string) : (a ++ b) ++ c = a ++ b ++ c.
Proof.
  induction a as [| x a IH]; [reflexivity |].
  change ((String x a ++ b) ++ c) with (String x ((a ++ b) ++ c)).
  rewrite IH. reflexivity.
Qed.

(** C7 fails on the code: with an evaluator that reaches the real
    builtins as CPython's [eval] does, the program writes two lines for
    the first expression, the line of [print] and the Success line, and
    for the second expression it writes nothing and exits with the status
    7.  The docstring of [calculate] promises a safe evaluation. *)
Theorem output_when_builtins_are_reached
    (host_eval : string -> nat -> nat -> world -> res value * world)
    (prog : string) (w : world) :
  reaches_builtins host_eval ->
  (stdout (snd (main host_eval [prog; print_through_builtins] w))
   = stdout w ++ ("x" ++ newline) ++ (success_text "null" ++ newline) /\
   ~ exists line : string,
       one_line line /\
       stdout (snd (main host_eval [prog; print_through_builtins] w))
       = stdout w ++ line ++ newline) /\
  (fst (main host_eval [prog; exit_through_builtins] w) = Exc (SysExit 7) /\
   stdout (snd (main host_eval [prog; exit_through_builtins] w)) = stdout w /\
   exit_status (fst (main host_eval [prog; exit_through_builtins] w))
   = Some 7).
Proof.
  intros [Hprint Hexit].
  assert (Hout : stdout (snd (main host_eval [prog; print_through_builtins] w))
                 = stdout w ++ ("x" ++ newline)
                   ++ (success_text "null" ++ newline)).
  { unfold main. cbn [length Nat.eqb negb nth].
    rewrite calculate_evaluation. unfold evaluation. rewrite Hprint.
    cbn [fst snd respond]. rewrite dumps_success. cbn [json_dumps res_bind].
    cbn [snd print stdout]. rewrite append_assoc. reflexivity. }
  split; [split; [exact Hout |] |].
  - intros (line & Hline & H). rewrite Hout in H.
    apply String.app_inj in H.
    change (("x" ++ newline) ++ success_text "null" ++ newline)
      with (("x" ++ newline ++ success_text "null") ++ newline) in H.
    apply append_inv_tail in H. subst line.
    apply Hline. vm_compute. right. left. reflexivity.
  - unfold main. cbn [length Nat.eqb negb nth].
    rewrite calculate_evaluation. unfold evaluation. rewrite Hexit.
    cbn [fst snd respond handler class_of is_Exception stdout exit_status].
    repeat split.
Qed.

(** [leaky_eval] is such an evaluator. *)
Lemma output_when_builtins_are_reached_witness :
  stdout (snd (main leaky_eval ["skill.py"; print_through_builtins]
                 initial_world))
  = ("x" ++ newline) ++ (success_text "null" ++ newline) /\
  exit_status (fst (main leaky_eval ["skill.py"; exit_through_builtins]
                      initial_world))
  = Some 7.
Proof.
  assert (H : reaches_builtins leaky_eval).
  { split; intros globals locals w; reflexivity. }
  split.
  - apply (proj1 (proj1 (output_when_builtins_are_reached leaky_eval
                           "skill.py" initial_world H))).
  - apply (proj2 (proj2 (output_when_builtins_are_reached leaky_eval
                           "skill.py" initial_world H))).
Defined.

(** ** Two evaluations of one expression *)

Lemma calculate_hash_secret (expression : string) (w : world) :
  hash_secret (snd (calculate py_eval expression w)) = hash_secret w.
Proof.
  rewrite calculate_evaluation. cbn [snd].
  unfold evaluation, py_eval. cbn [heap stdout hash_secret].
  destruct (_ =? _)%nat; [reflexivity |].
  destruct (_ !! _); [| reflexivity].
  destruct (_ !! _); [| reflexivity].
  destruct (parse expression) as [e | x | ]; try reflexivity.
  destruct (eval_expr _ _ e _) as [r l']. reflexivity.
Qed.

Section KeyIndependence.
Variables key key' : siphash_key.
Variable g : gmap string value.

Lemma eval_list_key (es : list expr) :
  Forall (fun e => unpacks e = false ->
                   forall l, eval_expr key g e l = eval_expr key' g e l) es ->
  existsb unpacks es = false ->
  forall l, eval_list (eval_expr key g) es l
            = eval_list (eval_expr key' g) es l.
Proof.
  induction 1 as [| e es He Hes IH]; intros Hu l; [reflexivity |].
  cbn in Hu. apply orb_false_elim in Hu as [Hu1 Hu2].
  cbn. rewrite (He Hu1 l).
  destruct (eval_expr key' g e l) as [[v | x | ] l1]; try reflexivity.
  rewrite (IH Hu2 l1). reflexivity.
Qed.

Lemma eval_elements_key (es : list expr) :
  Forall (fun e => unpacks (element_value e) = false ->
                   forall l, eval_expr key g (element_value e) l
                             = eval_expr key' g (element_value e) l) es ->
  existsb unpacks es = false ->
  forall l, eval_elements (eval_expr key g) (iterate key) es l
            = eval_elements (eval_expr key' g) (iterate key') es l.
Proof.
  induction 1 as [| e es He Hes IH]; intros Hu l; [reflexivity |].
  cbn in Hu. apply orb_false_elim in Hu as [Hu1 Hu2].
  assert (Hs : is_starred e = false) by (destruct e; try reflexivity; discriminate).
  assert (Hv : element_value e = e) by (destruct e; try reflexivity; discriminate).
  cbn. unfold eval_element. rewrite Hs.
  rewrite Hv in He |- *. rewrite (He Hu1 l).
  destruct (eval_expr key' g e l) as [[v | x | ] l1]; try reflexivity.
  rewrite (IH Hu2 l1). reflexivity.
Qed.

(** The key has a part in the evaluation of starred elements only. *)
Lemma eval_expr_key (e : expr) :
  unpacks e = false ->
  forall l, eval_expr key g e l = eval_expr key' g e l.
Proof.
  induction e as [c | id | op a IHa | a op b IHa IHb | op a b IHa IHb
                 | target a IHa | f args IHf IHargs | elts IHelts |
                 | elts IHelts | a IHa ]
    using expr_induction; intros Hu l; cbn in Hu;
    try (apply orb_false_elim in Hu as [Hu1 Hu2]); cbn;
    try reflexivity.
  - rewrite (IHa Hu l). reflexivity.
  - rewrite (IHa Hu1 l).
    destruct (eval_expr key' g a l) as [[va | x | ] l1]; try reflexivity.
    rewrite (IHb Hu2 l1). reflexivity.
  - rewrite (IHa Hu1 l).
    destruct (eval_expr key' g a l) as [[va | x | ] l1]; try reflexivity.
    rewrite (IHb Hu2 l1). reflexivity.
  - rewrite (IHa Hu l). reflexivity.
  - rewrite (IHf Hu1 l).
    destruct (eval_expr key' g f l) as [[vf | x | ] l1]; try reflexivity.
    rewrite (eval_list_key args IHargs Hu2 l1). reflexivity.
  - rewrite (eval_list_key elts IHelts Hu l). reflexivity.
  - rewrite (eval_elements_key elts IHelts Hu l). reflexivity.
Qed.

End KeyIndependence.

(** C8 as stated fails: the list of the elements of the set {'a', 'b'}
    comes in the order of the hashes of the two strings, which depend on
    the key that the process hashes with.  Under [PYTHONHASHSEED=1] the
    program answers ["a", "b"], under [PYTHONHASHSEED=2] it answers
    ["b", "a"]; without the variable the key is drawn at random. *)
Lemma set_order_counterexample :
  fst (calculate py_eval "[*{'a','b'}]" (process_start (key_of_seed 1)))
  = Ret (success_text ("[" ++ json_string "a" ++ ", " ++ json_string "b" ++ "]"))
  /\
  fst (calculate py_eval "[*{'a','b'}]" (process_start (key_of_seed 2)))
  = Ret (success_text ("[" ++ json_string "b" ++ ", " ++ json_string "a" ++ "]"))
  /\
  fst (calculate py_eval "[*{'a','b'}]" (process_start (key_of_seed 1)))
  <> fst (calculate py_eval "[*{'a','b'}]" (process_start (key_of_seed 2))).
Proof.
  split; [vm_compute; reflexivity |].
  split; [vm_compute; reflexivity |].
  vm_compute. discriminate.
Qed.

(** C8, amended: on the modelled fragment the result of [calculate] is a
    function of the expression and of the hash key of the process.  Two
    calls in states of the same key return the same result, whatever the
    heap and the output hold; a call leaves the key as it is, so that a
    second call in the state left by the first returns the same result;
    and when no element of a list display is starred, the result is the
    same under every key. *)
Theorem result_depends_on_the_hash_key_only
    (expression : string) (w w' : world) :
  hash_secret w' = hash_secret w ->
  fst (calculate py_eval expression w')
  = fst (calculate py_eval expression w) /\
  fst (calculate py_eval expression (snd (calculate py_eval expression w)))
  = fst (calculate py_eval expression w) /\
  (forall e : expr,
      parse expression = Ret e -> unpacks e = false ->
      forall w'' : world,
        fst (calculate py_eval expression w'')
        = fst (calculate py_eval expression w)).
Proof.
  intros Hk. split; [| split].
  - rewrite !calculate_result, Hk. reflexivity.
  - rewrite !calculate_result, calculate_hash_secret. reflexivity.
  - intros e Hp Hu w''. rewrite !calculate_result. unfold evaluate.
    rewrite Hp.
    rewrite (eval_expr_key (hash_secret w'') (hash_secret w) _ e Hu ∅).
    reflexivity.
Qed.

(** The set display again, in two states of one process; and an
    arithmetic expression in two processes. *)
Lemma result_depends_on_the_hash_key_only_witness :
  fst (calculate py_eval "[*{'a','b'}]"
         (print "x" (process_start (key_of_seed 2))))
  = fst (calculate py_eval "[*{'a','b'}]" (process_start (key_of_seed 2))) /\
  fst (calculate py_eval "2+2" (process_start (key_of_seed 1)))
  = fst (calculate py_eval "2+2" (process_start (key_of_seed 2))).
Proof.
  split.
  - apply (proj1 (result_depends_on_the_hash_key_only "[*{'a','b'}]"
                    (process_start (key_of_seed 2))
                    (print "x" (process_start (key_of_seed 2)))
                    eq_refl)).
  - apply (proj2 (proj2 (result_depends_on_the_hash_key_only "2+2"
                           (process_start (key_of_seed 2))
                           (process_start (key_of_seed 2)) eq_refl))
             (BinOp (Constant (CInt 2)) Add (Constant (CInt 2)))).
    + vm_compute. reflexivity.
    + reflexivity.
Defined.

(** ** Arithmetic and identifiers *)




(** C1 as stated fails: "1 or __import__('os')" refers to the identifier
    [__import__], which [allowed_names] does not bind, and [calculate]
    returns the Success variant: [or] does not evaluate its right operand
    when the left one is true, so the identifier is never looked up. *)
Lemma short_circuit_counterexample :
  exists e : expr,
    parse "1 or __import__('os')" = Ret e /\
    In "__import__" (names_in e) /\
    fresh_globals !! "__import__" = None /\
    fst (calculate py_eval "1 or __import__('os')" initial_world)
    = Ret (success_text "1") /\
    ~ is_failure (fst (calculate py_eval "1 or __import__('os')" initial_world)).
Proof.
  exists (BoolOp Or (Constant (CInt 1))
            (Call (Name "__import__") [Constant (CStr "os")])).
  assert (H : fst (calculate py_eval "1 or __import__('os')" initial_world)
              = Ret (success_text "1")).
  { rewrite calculate_result. vm_compute. reflexivity. }
  split; [vm_compute; reflexivity |].
  split; [cbn; tauto |].
  split; [vm_compute; reflexivity |].
  split; [exact H |].
  rewrite H. apply success_is_not_failure.
Qed.

(** C1, amended: when an identifier that neither [allowed_names] nor the
    expression itself binds stands in a position that is always evaluated
    (outside the right operand of [and] and [or]), [calculate] returns the
    Failure variant and not the Success variant, on every input the model
    covers.  No call expression of the fragment returns a value, so no
    function is invoked: "__import__('os')" is the Failure
    "name '__import__' is not defined". *)
Theorem unbound_name_is_a_failure
    (expression : string) (e : expr) (id : string) (w : world) :
  parse expression = Ret e ->
  In id (looked_up e) ->
  id <> "__builtins__" ->
  ~ In id (targets e) ->
  modelled (fst (calculate py_eval expression w)) ->
  is_failure (fst (calculate py_eval expression w)) /\
  ~ is_success (fst (calculate py_eval expression w)) /\
  (forall (key : siphash_key) (g l : gmap string value) (f : expr)
          (args : list expr) (v : value),
      fst (eval_expr key g (Call f args) l) <> Ret v) /\
  fst (calculate py_eval "__import__('os')" w)
  = Ret (error_text "name '__import__' is not defined").
Proof.
  intros Hp Hin Hid Ht Hm.
  assert (Hf : is_failure (fst (calculate py_eval expression w))).
  { rewrite calculate_result in *. unfold evaluate in *. rewrite Hp in *.
    destruct (eval_expr _ fresh_globals e ∅) as [[v | x | ] l'] eqn:E;
      cbn [fst] in *.
    - exfalso.
      eapply (looked_up_raises _ fresh_globals id
                (fresh_globals_unbound id Hid) e ∅); eauto.
    - exists (str_exn x). apply respond_exception.
      eapply eval_expr_exception, E.
    - exfalso. apply Hm. reflexivity. }
  split; [exact Hf |].
  split.
  { destruct Hf as [m ->]. apply failure_is_not_success. }
  split.
  { intros key g l f args v. apply call_never_returns. }
  rewrite calculate_result. vm_compute. reflexivity.
Qed.

Lemma unbound_name_is_a_failure_witness :
  is_failure (fst (calculate py_eval "2 * __import__('os') + 1" initial_world)).
Proof.
  apply (unbound_name_is_a_failure "2 * __import__('os') + 1"
           (BinOp (BinOp (Constant (CInt 2)) Mult
                         (Call (Name "__import__") [Constant (CStr "os")]))
                  Add (Constant (CInt 1)))
           "__import__" initial_world).
  - vm_compute. reflexivity.
  - cbn. tauto.
  - discriminate.
  - cbn. tauto.
  - vm_compute. discriminate.
Defined.

(** * Further properties of [calculate] and of the command line *)

(** ** What a returned text is *)

Lemma success_text_injective (a b : string) :
  success_text a = success_text b -> a = b.
Proof.
  unfold success_text, json_object2. intros H.
  repeat (apply String.app_inj in H).
  apply append_inv_tail in H. exact H.
Qed.





Lemma returned_text_is_plain
    (host_eval : string -> nat -> nat -> world -> res value * world)
    (expression : string) (w : world) (s : string) :
  fst (calculate host_eval expression w) = Ret s ->
  plain s = true /\ (is_success (Ret s) \/ is_failure (Ret s)).
Proof.
  rewrite calculate_evaluation. cbn [fst]. intros H.
  destruct (respond_shapes _ _ H) as [(v & text & Hv & ->) | (m & ->)].
  - split; [apply (plain_success_text v text Hv) |].
    left. exists v, text. split; [exact Hv | reflexivity].
  - split; [apply plain_error_text |].
    right. exists m. reflexivity.
Qed.

(** X1: whatever the evaluator does, a text that [calculate] returns is
    made of printable ASCII characters only, so it is one line, and it is
    the Success shape around the JSON text of a value or the Failure shape
    around a message: [json.dumps] escapes everything else. *)
Theorem calculate_returns_one_plain_line
    (host_eval : string -> nat -> nat -> world -> res value * world)
    (expression : string) (w : world) (s : string) :
  fst (calculate host_eval expression w) = Ret s ->
  plain s = true /\ one_line s /\
  (is_success (Ret s) \/ is_failure (Ret s)).
Proof.
  intros H.
  destruct (returned_text_is_plain host_eval expression w s H) as [Hp Hs].
  split; [exact Hp |]. split; [apply plain_one_line, Hp | exact Hs].
Qed.

(** An evaluator that returns a string holding a newline: the line that
    [calculate] returns has none. *)
Lemma calculate_returns_one_plain_line_witness :
  plain (success_text (json_string newline)) = true /\
  one_line (success_text (json_string newline)) /\
  (is_success (Ret (success_text (json_string newline))) \/
   is_failure (Ret (success_text (json_string newline)))).
Proof.
  apply (calculate_returns_one_plain_line
           (fun _ _ _ w => (Ret (VStr newline), w)) "" initial_world).
  vm_compute. reflexivity.
Defined.

Lemma success_carries_value
    (host_eval : string -> nat -> nat -> world -> res value * world)
    (expression : string) (w : world) (text : string) :
  fst (calculate host_eval expression w) = Ret (success_text text) ->
  exists v : value,
    fst (evaluation host_eval expression w) = Ret v /\
    json_dumps v = Ret text.
Proof.
  intros H. rewrite calculate_evaluation in H. cbn [fst] in H.
  destruct (fst (evaluation host_eval expression w)) as [v | x | ];
    cbn [respond] in H.
  - rewrite dumps_success in H.
    destruct (json_dumps v) as [t | y | ] eqn:Ev; cbn [res_bind] in H.
    + apply Ret_injective, success_text_injective in H. subst t.
      exists v. split; [reflexivity | exact Ev].
    + apply handler_returns in H. exfalso. eapply success_is_not_error, H.
    + discriminate.
  - apply handler_returns in H. exfalso. eapply success_is_not_error, H.
  - discriminate.
Qed.

(** X2: a Success line is returned only when the evaluator returned a
    value and [json.dumps] accepted it, and the line carries the JSON text
    of that very value; no text is a Success line and a Failure line. *)
Theorem success_carries_the_value
    (host_eval : string -> nat -> nat -> world -> res value * world)
    (expression : string) (w : world) (text : string) :
  fst (calculate host_eval expression w) = Ret (success_text text) ->
  (exists v : value,
      fst (evaluation host_eval expression w) = Ret v /\
      json_dumps v = Ret text) /\
  ~ is_failure (fst (calculate host_eval expression w)).
Proof.
  intros H. split; [apply success_carries_value, H |].
  rewrite H. apply success_is_not_failure.
Qed.

Lemma success_carries_the_value_witness :
  (exists v : value,
      fst (evaluation py_eval "2+2" initial_world) = Ret v /\
      json_dumps v = Ret "4") /\
  ~ is_failure (fst (calculate py_eval "2+2" initial_world)).
Proof.
  apply (success_carries_the_value py_eval "2+2" initial_world "4").
  vm_compute. reflexivity.
Defined.



(** X4: an exception of the evaluator that is not an [Exception], such
    as the [SystemExit] of [sys.exit], is not caught: it leaves
    [calculate] and the program as it is, nothing is printed after the
    evaluation, and the exit status is the code of [sys.exit] (a code
    from 0 to 255). *)
Theorem other_exceptions_pass_through
    (host_eval : string -> nat -> nat -> world -> res value * world)
    (argv : list string) (w : world) (x : exn) :
  length argv = 2%nat ->
  fst (evaluation host_eval (nth 1 argv "") w) = Exc x ->
  ~ ordinary x ->
  fst (calculate host_eval (nth 1 argv "") w) = Exc x /\
  main host_eval argv w
  = (Exc x, snd (evaluation host_eval (nth 1 argv "") w)) /\
  (forall code : Z,
      x = SysExit code -> 0 <= code < 256 ->
      exit_status (fst (main host_eval argv w)) = Some code).
Proof.
  intros Hlen Hx Ho.
  assert (Hc : calculate host_eval (nth 1 argv "") w
               = (Exc x, snd (evaluation host_eval (nth 1 argv "") w))).
  { rewrite calculate_evaluation, Hx. cbn [respond]. unfold handler.
    unfold ordinary in Ho.
    destruct (is_Exception (class_of x)); [contradiction | reflexivity]. }
  assert (Hm : main host_eval argv w
               = (Exc x, snd (evaluation host_eval (nth 1 argv "") w))).
  { unfold main. rewrite Hlen, Hc. reflexivity. }
  split; [rewrite Hc; reflexivity |]. split; [exact Hm |].
  intros code -> _. rewrite Hm. reflexivity.
Qed.

Lemma other_exceptions_pass_through_witness :
  exit_status (fst (main leaky_eval ["skill.py"; exit_through_builtins]
                      initial_world))
  = Some 7.
Proof.
  apply (proj2 (proj2 (other_exceptions_pass_through leaky_eval
                         ["skill.py"; exit_through_builtins] initial_world
                         (SysExit 7) eq_refl eq_refl
                         (fun H => Bool.diff_false_true H)))
           7 eq_refl ltac:(lia)).
Defined.

(** ** Division *)



Lemma has_float_mark_app (a b : string) :
  has_float_mark (a ++ b) = has_float_mark a || has_float_mark b.
Proof.
  unfold has_float_mark. rewrite list_ascii_of_string_app. apply existsb_app.
Qed.

Lemma format_digits_float_mark (ds : string) (n : Z) :
  has_float_mark (format_digits ds n) = true.
Proof.
  unfold format_digits.
  repeat match goal with
         | |- context [if ?b then _ else _] => destruct b
         end;
    rewrite ?has_float_mark_app; cbn; rewrite ?orb_true_r; reflexivity.
Qed.

Lemma float_json_float_mark (f : float) (s : string) :
  float_json f = Some s -> has_float_mark s = true.
Proof.
  destruct f as [[] | [] | | sg m e]; cbn [float_json float_repr]; intros H;
    try (injection H as <-; reflexivity).
  destruct (shortest_digits m e) as [[ds p] |]; [| discriminate].
  injection H as <-.
  rewrite has_float_mark_app, format_digits_float_mark. apply orb_true_r.
Qed.

Lemma uint_no_float_mark (d : Decimal.uint) :
  has_float_mark (NilEmpty.string_of_uint d) = false.
Proof. induction d; cbn; try reflexivity; exact IHd. Qed.

Lemma string_of_Z_no_float_mark (n : Z) : has_float_mark (string_of_Z n) = false.
Proof.
  unfold string_of_Z, NilZero.string_of_int, NilZero.string_of_uint.
  destruct (Z.to_int n) as [d | d]; destruct d; try reflexivity;
    try apply (uint_no_float_mark (_ _));
    change (has_float_mark (String "-" ?s)) with (has_float_mark s);
    apply (uint_no_float_mark (_ _)).
Qed.

(** X6: the quotient of two integer expressions is a float, also when it
    is a whole number, and a float is never printed as an int is: its text
    has a decimal point or an exponent, or is Infinity or NaN.  So "10/2"
    yields 5.0, not 5. *)
Theorem quotient_is_printed_as_a_float
    (expression : string) (a b : expr) (x y : Z) (w : world) (text : string) :
  parse expression = Ret (BinOp a Div b) ->
  int_value a = Some x ->
  int_value b = Some y ->
  fst (calculate py_eval expression w) = Ret (success_text text) ->
  (exists f : float,
      evaluate (hash_secret w) expression = Ret (VFloat f) /\
      float_json f = Some text) /\
  has_float_mark text = true /\
  (forall n : Z, text <> string_of_Z n).
Proof.
  intros Hp Ha Hb H.
  destruct (success_carries_value py_eval expression w text H)
    as (v & Hv & Hd).
  rewrite (proj1 (py_eval_evaluation expression w)) in Hv.
  assert (Hf : exists f, v = VFloat f).
  { unfold evaluate in Hv. rewrite Hp in Hv. cbn [eval_expr] in Hv.
    rewrite (eval_int_value _ _ a x ∅ Ha), (eval_int_value _ _ b y ∅ Hb) in Hv.
    cbn [fst binary_op int_op] in Hv.
    destruct (y =? 0); [discriminate |].
    destruct (is_infinite (int_true_divide x y)); [discriminate |].
    injection Hv as <-. eexists. reflexivity. }
  destruct Hf as [f ->]. cbn [json_dumps] in Hd.
  destruct (float_json f) as [s |] eqn:Ef; [| discriminate].
  injection Hd as ->.
  assert (Hm := float_json_float_mark f text Ef).
  split; [exists f; split; [exact Hv | exact Ef] |].
  split; [exact Hm |].
  intros n ->. rewrite string_of_Z_no_float_mark in Hm. discriminate.
Qed.

Lemma quotient_is_printed_as_a_float_witness :
  has_float_mark "5.0" = true /\ (forall n : Z, "5.0" <> string_of_Z n).
Proof.
  apply (quotient_is_printed_as_a_float "10/2"
           (Constant (CInt 10)) (Constant (CInt 2)) 10 2 initial_world "5.0").
  - vm_compute. reflexivity.
  - reflexivity.
  - reflexivity.
  - vm_compute. reflexivity.
Defined.

(** ** The text of an int, read as an expression *)

Lemma to_uint_normal (p : positive) :
  Decimal.unorm (Pos.to_uint p) = Pos.to_uint p.
Proof.
  rewrite <- (DecimalPos.Unsigned.to_of (Pos.to_uint p)).
  rewrite DecimalPos.Unsigned.of_to. reflexivity.
Qed.

(** The decimal digits of a positive number do not start with a zero. *)
Lemma to_uint_head (p : positive) :
  match Pos.to_uint p with
  | Decimal.Nil | Decimal.D0 _ => False
  | _ => True
  end.
Proof.
  assert (Hn := to_uint_normal p).
  assert (Hz := DecimalPos.Unsigned.to_uint_nonzero p).
  assert (Hnil := DecimalPos.Unsigned.to_uint_nonnil p).
  destruct (Pos.to_uint p) as [| u | | | | | | | | | ]; try exact I.
  - apply Hnil. reflexivity.
  - rewrite DecimalFacts.unorm_D0 in Hn.
    destruct (Decimal.uint_eq_dec u Decimal.Nil) as [-> | Hu].
    + apply Hz. reflexivity.
    + assert (H := DecimalFacts.nb_digits_unorm u Hu).
      rewrite Hn in H. cbn in H. lia.
Qed.

Lemma digits_uint (d : Decimal.uint) :
  forallb is_digit (list_ascii_of_string (NilEmpty.string_of_uint d)) = true.
Proof. induction d; cbn; try reflexivity; exact IHd. Qed.

(** The text of a number that is not negative: digits, of which the
    first is a zero for the number zero only. *)
Lemma string_of_Z_digits (n : Z) :
  0 <= n ->
  exists (c : ascii) (s : string),
    string_of_Z n = String c s /\
    is_digit c = true /\
    forallb is_digit (list_ascii_of_string s) = true /\
    (Ascii.eqb c "0" = true -> n = 0).
Proof.
  intros Hn. destruct n as [| p | p]; [| | lia].
  - exists "0"%char, EmptyString. repeat split; reflexivity.
  - assert (Hh := to_uint_head p). assert (Hd := digits_uint (Pos.to_uint p)).
    unfold string_of_Z. cbn [Z.to_int NilZero.string_of_int].
    unfold NilZero.string_of_uint.
    destruct (Pos.to_uint p) as [| u | u | u | u | u | u | u | u | u | u ];
      try contradiction; cbn [NilEmpty.string_of_uint] in *;
      eexists _, _; (split; [reflexivity |]);
      (split; [reflexivity |]); (split; [exact Hd | discriminate]).
Qed.

Lemma Z_of_digits_string_of_Z (n : Z) :
  0 <= n -> Z_of_digits (string_of_Z n) = Some n.
Proof.
  intros Hn. destruct n as [| p | p]; [reflexivity | | lia].
  unfold Z_of_digits, string_of_Z. cbn [Z.to_int NilZero.string_of_int].
  unfold NilZero.string_of_uint.
  assert (Hnil := DecimalPos.Unsigned.to_uint_nonnil p).
  destruct (Pos.to_uint p) eqn:E; try contradiction;
    rewrite <- E, NilEmpty.usu; unfold Z.of_uint;
    rewrite DecimalPos.Unsigned.of_to; reflexivity.
Qed.

Lemma digit_facts (c : ascii) :
  is_digit c = true ->
  is_name_start c = false /\
  Ascii.eqb c " " = false /\ Ascii.eqb c (ascii_of_N 9) = false /\
  Ascii.eqb c "j" = false /\ Ascii.eqb c "J" = false /\
  Ascii.eqb c "." = false /\ Ascii.eqb c "=" = false /\
  Ascii.eqb c "*" = false /\ Ascii.eqb c "/" = false /\
  Ascii.eqb c ">" = false /\ is_quote c = false.
Proof.
  destruct c as [[] [] [] [] [] [] [] []]; intros H; try discriminate H;
    repeat split.
Qed.

Lemma option_app_nil {A : Type} (o : option (list A)) :
  match o with
  | Some rest => Some ([] ++ rest)%list
  | None => None
  end = o.
Proof. destruct o; reflexivity. Qed.

Lemma lex_cons (st : lex_state) (c : ascii) (s : string) :
  lex st (String c s)
  = match lex_step st c with
    | Some (ts, st') =>
        match lex st' s with
        | Some rest => Some (ts ++ rest)%list
        | None => None
        end
    | None => None
    end.
Proof. reflexivity. Qed.

Lemma lex_digit (ds : list ascii) (c : ascii) (s : string) :
  is_digit c = true ->
  lex (LNumber ds) (String c s) = lex (LNumber (c :: ds)) s.
Proof.
  intros Hc. cbn [lex lex_step]. rewrite Hc. apply option_app_nil.
Qed.

Lemma lex_digits (s : string) :
  forallb is_digit (list_ascii_of_string s) = true ->
  forall (ds : list ascii) (rest : string),
    lex (LNumber ds) (s ++ rest)
    = lex (LNumber (rev_append (list_ascii_of_string s) ds)) rest.
Proof.
  induction s as [| c s IH]; intros H ds rest; [reflexivity |].
  cbn in H. apply andb_prop in H as [Hc Hs].
  change (String c s ++ rest) with (String c (s ++ rest)).
  rewrite (lex_digit ds c _ Hc), (IH Hs). reflexivity.
Qed.

(** The token of the text of a number. *)
Lemma number_token_string_of_Z (n : Z) :
  0 <= n -> within_digit_limit n = true ->
  number_token (rev_append (list_ascii_of_string (string_of_Z n)) [])
  = Some (NUMBER n).
Proof.
  intros Hn Hl. unfold number_token, text_of_rev.
  rewrite rev_append_rev, app_nil_r, rev_involutive.
  rewrite string_of_list_ascii_of_string, (Z_of_digits_string_of_Z n Hn).
  unfold within_digit_limit in Hl. rewrite Z.abs_eq in Hl by exact Hn.
  rewrite Hl. cbn [andb].
  destruct (string_of_Z_digits n Hn) as (c & s & -> & _ & _ & Hz).
  destruct (n =? 0) eqn:E; [reflexivity |].
  cbn [orb substring]. destruct s; cbn [substring].
  - destruct (Ascii.eqb c "0") eqn:Ec.
    + apply Z.eqb_neq in E. exfalso. apply E, Hz. reflexivity.
    + unfold String.eqb. rewrite Ec. reflexivity.
  - destruct (Ascii.eqb c "0") eqn:Ec.
    + apply Z.eqb_neq in E. exfalso. apply E, Hz. reflexivity.
    + unfold String.eqb. rewrite Ec. reflexivity.
Qed.

Lemma lex_number_end (ds : list ascii) (t : token) (c : ascii) (r : string) :
  number_token ds = Some t ->
  ends_number c = true ->
  lex (LNumber ds) (String c r) = option_map (cons t) (lex LStart (String c r)).
Proof.
  intros Ht Hc. unfold ends_number in Hc.
  apply negb_true_iff in Hc.
  apply orb_false_elim in Hc as [Hc Hpoint].
  apply orb_false_elim in Hc as [Hdigit Hname].
  assert (Hj : Ascii.eqb c "j" || Ascii.eqb c "J" = false).
  { destruct (Ascii.eqb_spec c "j") as [-> | _]; [discriminate Hname |].
    destruct (Ascii.eqb_spec c "J") as [-> | _]; [discriminate Hname |].
    reflexivity. }
  cbn [lex lex_step]. rewrite Hdigit, Hj, Hname, Hpoint, Ht. cbn [orb].
  unfold emit_then.
  destruct (lex_start c) as [[ts st] |]; [| reflexivity].
  destruct (lex st r); reflexivity.
Qed.

(** A number at the start of a text is one token, when the text ends
    there or goes on with a character that is not part of a number. *)
Lemma lex_number (n : Z) (rest : string) :
  0 <= n -> within_digit_limit n = true ->
  match rest with
  | EmptyString => True
  | String c _ => ends_number c = true
  end ->
  lex LStart (string_of_Z n ++ rest)
  = option_map (cons (NUMBER n)) (lex LStart rest).
Proof.
  intros Hn Hl Hrest.
  assert (Ht := number_token_string_of_Z n Hn Hl).
  destruct (string_of_Z_digits n Hn) as (c & s & E & Hc & Hs & _).
  rewrite E in *.
  change (String c s ++ rest) with (String c (s ++ rest)).
  destruct (digit_facts c Hc) as (_ & Hsp & Htab & _).
  cbn [lex lex_step]. unfold lex_start. rewrite Hsp, Htab, Hc. cbn [orb].
  rewrite option_app_nil, (lex_digits s Hs).
  cbn [list_ascii_of_string rev_append] in Ht.
  destruct rest as [| c' r].
  - cbn [lex lex_end]. rewrite Ht. reflexivity.
  - apply lex_number_end; assumption.
Qed.

Lemma lex_start_operator (o : ascii) (t : token) :
  operator_token o = Some t -> lex_start o = Some ([], LOperator o).
Proof.
  unfold operator_token. intros Ho.
  destruct (Ascii.eqb_spec o "+") as [-> | _]; [reflexivity |].
  destruct (Ascii.eqb_spec o "-") as [-> | _]; [reflexivity |].
  destruct (Ascii.eqb_spec o "*") as [-> | _]; [reflexivity |].
  destruct (Ascii.eqb_spec o "/") as [-> | _]; [reflexivity |].
  discriminate.
Qed.

Lemma lex_operator_digit (o : ascii) (t : token) (c : ascii) (r : string) :
  is_digit c = true ->
  operator_token o = Some t ->
  lex (LOperator o) (String c r) = option_map (cons t) (lex LStart (String c r)).
Proof.
  intros Hc Ho.
  destruct (digit_facts c Hc)
    as (Hname & Hsp & Htab & _ & _ & _ & Heq & Hstar & Hslash & Hgt & Hq).
  assert (Hstart : lex_start c = Some ([], LNumber [c])).
  { unfold lex_start. rewrite Hsp, Htab, Hc. reflexivity. }
  assert (Hcolon : Ascii.eqb o ":" = false).
  { destruct (Ascii.eqb_spec o ":") as [-> | _]; [discriminate | reflexivity]. }
  cbn [lex lex_step].
  rewrite Hcolon, Heq, Hstar, Hslash, Hgt, !andb_false_r, Ho.
  unfold emit_then. rewrite Hstart.
  destruct (lex (LNumber [c]) r); reflexivity.
Qed.

(** An operator before a number is a token of its own. *)
Lemma lex_operator_number (o : ascii) (t : token) (n : Z) (rest : string) :
  0 <= n ->
  operator_token o = Some t ->
  lex LStart (String o (string_of_Z n ++ rest))
  = option_map (cons t) (lex LStart (string_of_Z n ++ rest)).
Proof.
  intros Hn Ho.
  destruct (string_of_Z_digits n Hn) as (c & s & E & Hc & _).
  rewrite E. change (String c s ++ rest) with (String c (s ++ rest)).
  change (lex LStart (String o (String c (s ++ rest))))
    with (match lex_step LStart o with
          | Some (ts, st') =>
              match lex st' (String c (s ++ rest)) with
              | Some rest => Some (ts ++ rest)%list
              | None => None
              end
          | None => None
          end).
  cbn [lex_step]. rewrite (lex_start_operator o t Ho), option_app_nil.
  apply lex_operator_digit; assumption.
Qed.

Lemma lex_doublestar_number (n : Z) (rest : string) :
  0 <= n ->
  lex LStart (String "*" (String "*" (string_of_Z n ++ rest)))
  = option_map (cons DOUBLESTAR) (lex LStart (string_of_Z n ++ rest)).
Proof.
  intros Hn.
  destruct (string_of_Z_digits n Hn) as (c & s & E & Hc & _).
  rewrite E. change (String c s ++ rest) with (String c (s ++ rest)).
  destruct (digit_facts c Hc)
    as (Hname & Hsp & Htab & _ & _ & _ & Heq & Hstar & Hslash & Hgt & Hq).
  assert (Hstart : lex_start c = Some ([], LNumber [c])).
  { unfold lex_start. rewrite Hsp, Htab, Hc. reflexivity. }
  rewrite (lex_cons LStart "*").
  change (lex_step LStart "*") with (Some ([] : list token, LOperator "*")).
  cbv beta iota. rewrite option_app_nil, (lex_cons (LOperator "*") "*").
  change (lex_step (LOperator "*") "*")
    with (Some ([] : list token, LDoubleStar)).
  cbv beta iota.
  rewrite option_app_nil, (lex_cons LDoubleStar c), (lex_cons LStart c).
  cbn [lex_step]. rewrite Heq. unfold emit_then. rewrite Hstart.
  destruct (lex (LNumber [c]) (s ++ rest)); reflexivity.
Qed.

Lemma append_empty_r (s : string) : s ++ "" = s.
Proof.
  induction s as [| c s IH]; [reflexivity |].
  change (String c s ++ "") with (String c (s ++ "")). rewrite IH.
  reflexivity.
Qed.

Lemma string_of_Z_neg (p : positive) :
  string_of_Z (Zneg p) = String "-" (string_of_Z (Zpos p)).
Proof. reflexivity. Qed.

Lemma within_digit_limit_abs (n : Z) :
  within_digit_limit (Z.abs n) = within_digit_limit n.
Proof. unfold within_digit_limit. rewrite Z.abs_idemp. reflexivity. Qed.

Lemma tokenize_number (n : Z) :
  0 <= n -> within_digit_limit n = true ->
  tokenize (string_of_Z n) = Some [NUMBER n].
Proof.
  intros Hn Hl. unfold tokenize.
  rewrite <- (append_empty_r (string_of_Z n)).
  rewrite (lex_number n "" Hn Hl I). reflexivity.
Qed.

Lemma respond_int (n : Z) :
  within_digit_limit n = true ->
  respond (Ret (VInt n)) = Ret (success_text (string_of_Z n)).
Proof.
  intros Hl. cbn [respond]. rewrite dumps_success. cbn [json_dumps].
  rewrite Hl. reflexivity.
Qed.

(** X7: the text that the program prints for an int result, read as an
    expression, evaluates to that int again: every int of at most 4300
    digits, negative ones included, is printed in a form that the
    evaluator reads back. *)
Theorem printed_int_reads_back (n : Z) (w : world) :
  within_digit_limit n = true ->
  evaluate (hash_secret w) (string_of_Z n) = Ret (VInt n) /\
  fst (calculate py_eval (string_of_Z n) w)
  = Ret (success_text (string_of_Z n)).
Proof.
  intros Hl.
  assert (He : evaluate (hash_secret w) (string_of_Z n) = Ret (VInt n)).
  { unfold evaluate, parse. destruct n as [| p | p].
    - reflexivity.
    - rewrite (tokenize_number (Zpos p)) by (lia || exact Hl). reflexivity.
    - rewrite string_of_Z_neg. unfold tokenize.
      rewrite <- (append_empty_r (string_of_Z (Zpos p))).
      rewrite (lex_operator_number "-" MINUS (Zpos p) "") by (lia || reflexivity).
      rewrite (lex_number (Zpos p) "") by (lia || exact Hl || exact I).
      reflexivity. }
  split; [exact He |].
  rewrite calculate_result, He. apply respond_int, Hl.
Qed.

Lemma printed_int_reads_back_witness :
  fst (calculate py_eval "-1024" initial_world) = Ret (success_text "-1024").
Proof.
  apply (printed_int_reads_back (-1024) initial_world). reflexivity.
Defined.

(** ** Precedence of the arithmetic operators *)

Lemma lex_empty : lex LStart "" = Some [].
Proof. reflexivity. Qed.

Ltac open_text :=
  repeat match goal with
         | |- context [String ?c ?s ++ ?x] =>
             change (String c s ++ x) with (String c (s ++ x))
         | |- context [EmptyString ++ ?x] => change (EmptyString ++ x) with x
         end.

Ltac lex_tokens :=
  unfold tokenize; open_text;
  repeat first
    [ rewrite lex_empty
    | rewrite lex_number by (assumption || exact I || reflexivity)
    | rewrite lex_doublestar_number by assumption
    | rewrite (lex_operator_number "+" PLUS) by (assumption || reflexivity)
    | rewrite (lex_operator_number "-" MINUS) by (assumption || reflexivity)
    | rewrite (lex_operator_number "*" STAR) by (assumption || reflexivity)
    | rewrite (lex_operator_number "/" SLASH) by (assumption || reflexivity)
    | progress cbn [option_map] ].

(** X8: [**] associates to the right and binds tighter than the unary
    minus on its left: for numbers [a], [b], [c] that are not negative,
    "a**b**c" is a to the power of b**c, and "-a**b" is the opposite of
    a**b. *)
Theorem power_binds_to_the_right (a b c : Z) (w : world) :
  0 <= a -> 0 <= b -> 0 <= c ->
  within_digit_limit a = true ->
  within_digit_limit b = true ->
  within_digit_limit c = true ->
  power_fits b c = true ->
  power_fits a (b ^ c) = true ->
  power_fits a b = true ->
  within_digit_limit (a ^ (b ^ c)) = true ->
  within_digit_limit (a ^ b) = true ->
  fst (calculate py_eval
         (string_of_Z a ++ "**" ++ string_of_Z b ++ "**" ++ string_of_Z c) w)
  = Ret (success_text (string_of_Z (a ^ (b ^ c)))) /\
  fst (calculate py_eval ("-" ++ string_of_Z a ++ "**" ++ string_of_Z b) w)
  = Ret (success_text (string_of_Z (- a ^ b))).
Proof.
  intros Ha Hb Hc La Lb Lc Fbc Fabc Fab Labc Lab.
  rewrite !calculate_result. split.
  - assert (Ht : tokenize (string_of_Z a ++ "**" ++ string_of_Z b ++ "**"
                           ++ string_of_Z c)
                 = Some [NUMBER a; DOUBLESTAR; NUMBER b; DOUBLESTAR;
                         NUMBER c]).
    { rewrite <- (append_empty_r (string_of_Z c)).
      lex_tokens. reflexivity. }
    unfold evaluate, parse. rewrite Ht.
    cbn [length Nat.leb max_tokens].
    change (parse_disjunction _ true
              [NUMBER a; DOUBLESTAR; NUMBER b; DOUBLESTAR; NUMBER c])
      with (Parsed (BinOp (Constant (CInt a)) Pow
                      (BinOp (Constant (CInt b)) Pow (Constant (CInt c))))
              []).
    cbn [eval_expr constant_value binary_op int_op fst].
    rewrite Fbc. cbn [binary_op int_op]. rewrite Fabc. cbn [fst].
    apply respond_int, Labc.
  - assert (Ht : tokenize ("-" ++ string_of_Z a ++ "**" ++ string_of_Z b)
                 = Some [MINUS; NUMBER a; DOUBLESTAR; NUMBER b]).
    { rewrite <- (append_empty_r (string_of_Z b)).
      lex_tokens. reflexivity. }
    unfold evaluate, parse. rewrite Ht.
    cbn [length Nat.leb max_tokens].
    change (parse_disjunction _ true
              [MINUS; NUMBER a; DOUBLESTAR; NUMBER b])
      with (Parsed (UnaryOp USub
                      (BinOp (Constant (CInt a)) Pow (Constant (CInt b))))
              []).
    cbn [eval_expr constant_value binary_op int_op fst].
    rewrite Fab. cbn [unary_op fst].
    apply respond_int. rewrite <- within_digit_limit_abs, Z.abs_opp.
    rewrite within_digit_limit_abs. exact Lab.
Qed.

Lemma power_binds_to_the_right_witness :
  fst (calculate py_eval "2**3**2" initial_world) = Ret (success_text "512") /\
  fst (calculate py_eval "-2**3" initial_world) = Ret (success_text "-8").
Proof.
  refine (power_binds_to_the_right 2 3 2 initial_world _ _ _ _ _ _ _ _ _ _ _);
    (lia || reflexivity).
Defined.



(** ** The line that the program prints *)



(** ** Names *)






(** ** The elements of a set, in any order *)

Lemma land_7_range (h : Z) : 0 <= Z.land h 7 < 8.
Proof.
  change 7 with (Z.ones 3). rewrite Z.land_ones by lia.
  apply Z.mod_pos_bound. lia.
Qed.

Lemma set_probe_step (fuel : nat) (table : set_table) (hash : Z)
    (key : string) (i perturb : Z) :
  set_probe (S fuel) table hash key i perturb
  = match table !! Z.to_nat i with
    | Some None => Some (<[Z.to_nat i := Some (hash, key)]> table)
    | Some (Some (h, k)) =>
        if (h =? hash) && String.eqb k key then Some table
        else
          set_probe fuel table hash key
            (Z.land (i * 5 + 1 + Z.shiftr perturb perturb_shift) set_mask)
            (Z.shiftr perturb perturb_shift)
    | None => None
    end.
Proof. reflexivity. Qed.

Section TwoKeys.
Variables (h1 : Z) (k1 : string) (i1 : nat).
Hypothesis Hi1 : (i1 < 8)%nat.

Lemma one_key_lookup_eq : one_key_table i1 h1 k1 !! i1 = Some (Some (h1, k1)).
Proof.
  unfold one_key_table. apply list_lookup_insert_eq. rewrite length_replicate.
  exact Hi1.
Qed.

Lemma one_key_lookup_ne (j : nat) :
  (j < 8)%nat -> j <> i1 -> one_key_table i1 h1 k1 !! j = Some None.
Proof.
  intros Hj Hne. unfold one_key_table, set_table.
  rewrite list_lookup_insert_ne by congruence.
  apply lookup_replicate_2, Hj.
Qed.

(** A second key that differs from the first finds an empty slot: the
    probe leaves the slot of the first key at once, or when the
    perturbation is used up. *)
Lemma probe_second_key (h : Z) (k : string) :
  k1 <> k ->
  forall (n fuel : nat) (i p : Z),
    (n + 2 <= fuel)%nat -> 0 <= p < 32 ^ Z.of_nat n -> 0 <= i < 8 ->
    exists j : nat,
      (j < 8)%nat /\ j <> i1 /\
      set_probe fuel (one_key_table i1 h1 k1) h k i p
      = Some (<[j := Some (h, k)]> (one_key_table i1 h1 k1)).
Proof.
  intros Hk.
  assert (Heq : (h1 =? h) && String.eqb k1 k = false).
  { apply andb_false_iff. right. apply String.eqb_neq, Hk. }
  assert (Hfree : forall fuel i p,
             0 <= i < 8 -> Z.to_nat i <> i1 ->
             exists j : nat,
               (j < 8)%nat /\ j <> i1 /\
               set_probe (S fuel) (one_key_table i1 h1 k1) h k i p
               = Some (<[j := Some (h, k)]> (one_key_table i1 h1 k1))).
  { intros fuel i p Hi Hne. exists (Z.to_nat i).
    split; [lia |]. split; [exact Hne |].
    rewrite set_probe_step, one_key_lookup_ne by (lia || exact Hne).
    reflexivity. }
  induction n as [| n IH]; intros fuel i p Hfuel Hp Hi;
    (destruct fuel as [| fuel]; [lia |]);
    (destruct (Nat.eq_dec (Z.to_nat i) i1) as [E | E];
       [| apply Hfree; assumption]).
  - rewrite set_probe_step, E, one_key_lookup_eq, Heq.
    assert (p = 0) by (cbn in Hp; lia). subst p.
    change (Z.shiftr 0 perturb_shift) with 0. rewrite Z.add_0_r.
    destruct fuel as [| fuel]; [lia |].
    apply Hfree; [apply land_7_range |].
    unfold set_mask. rewrite <- E.
    assert (Hc : i = 0 \/ i = 1 \/ i = 2 \/ i = 3 \/ i = 4 \/ i = 5 \/ i = 6
                 \/ i = 7) by lia.
    destruct Hc as [-> | [-> | [-> | [-> | [-> | [-> | [-> | ->]]]]]]];
      vm_compute; discriminate.
  - rewrite set_probe_step, E, one_key_lookup_eq, Heq.
    apply IH; [lia | | apply land_7_range].
    unfold perturb_shift. rewrite Z.shiftr_div_pow2 by lia.
    rewrite Nat2Z.inj_succ, Z.pow_succ_r in Hp by lia.
    change (2 ^ 5) with 32. split.
    + apply Z.div_pos; lia.
    + apply Z.div_lt_upper_bound; lia.
Qed.

End TwoKeys.

Lemma two_keys (i1 j : nat) (h1 h : Z) (k1 k : string) :
  (i1 < 8)%nat -> (j < 8)%nat -> j <> i1 ->
  table_keys (<[j := Some (h, k)]> (one_key_table i1 h1 k1))
  = if (j <? i1)%nat then [VStr k; VStr k1] else [VStr k1; VStr k].
Proof.
  intros Hi Hj Hne. unfold one_key_table.
  do 8 (destruct i1 as [| i1];
        [ do 8 (destruct j as [| j]; [first [congruence | reflexivity] |]);
          lia |]).
  lia.
Qed.

Lemma u64_range (x : Z) : 0 <= u64 x < 32 ^ Z.of_nat 13.
Proof.
  unfold u64. assert (H := Z.mod_pos_bound x (2 ^ 64) eq_refl).
  change (32 ^ Z.of_nat 13) with (2 ^ 65).
  assert (2 ^ 64 < 2 ^ 65) by reflexivity. lia.
Qed.

Lemma set_add_first (h : Z) (k : string) :
  set_add (replicate 8 None) h k
  = Some (one_key_table (Z.to_nat (Z.land h 7)) h k).
Proof.
  unfold set_add. change 32%nat with (S 31). rewrite set_probe_step.
  unfold set_mask, set_table. rewrite lookup_replicate_2; [reflexivity |].
  assert (H := land_7_range h). lia.
Qed.

(** Whatever the key, the iteration of the set of two strings gives the
    two strings, or the one string that both are. *)
Lemma set_iteration_two (key : siphash_key) (a b : string) :
  (a = b -> set_iteration key [VStr a; VStr b] = Some [VStr a]) /\
  (a <> b ->
   set_iteration key [VStr a; VStr b] = Some [VStr a; VStr b] \/
   set_iteration key [VStr a; VStr b] = Some [VStr b; VStr a]).
Proof.
  unfold set_iteration. cbn [length Nat.leb set_add_all].
  rewrite set_add_first.
  assert (Hi := land_7_range (hash_str key a)).
  set (i1 := Z.to_nat (Z.land (hash_str key a) 7)).
  assert (Hi1 : (i1 < 8)%nat) by (unfold i1; lia).
  split.
  - intros <-. unfold set_add. change 32%nat with (S 31).
    rewrite set_probe_step. unfold set_mask. fold i1.
    rewrite (one_key_lookup_eq _ _ i1 Hi1), Z.eqb_refl, String.eqb_refl.
    cbn [andb option_map]. f_equal.
    clear Hi. unfold one_key_table.
    do 8 (destruct i1 as [| i1]; [reflexivity |]). lia.
  - intros Hab. unfold set_add.
    destruct (probe_second_key (hash_str key a) a i1 Hi1 (hash_str key b) b
                Hab 13 32 (Z.land (hash_str key b) set_mask)
                (u64 (hash_str key b)))
      as (j & Hj & Hne & ->);
      [lia | apply u64_range | apply land_7_range |].
    cbn [option_map]. rewrite (two_keys i1 j _ _ _ _ Hi1 Hj Hne).
    destruct (j <? i1)%nat; [right | left]; reflexivity.
Qed.

(** X12: the key of the process decides the order of the elements of a
    set and nothing else.  For the list of the elements of a set display
    of two strings, [calculate] returns, under every key, the two strings
    in one order or the other, and the one string when both are the
    same. *)
Theorem set_elements_in_some_order
    (expression a b : string) (w : world) :
  parse expression
  = Ret (ListDisplay
           [Starred (SetDisplay [Constant (CStr a); Constant (CStr b)])]) ->
  (a = b ->
   fst (calculate py_eval expression w)
   = Ret (success_text ("[" ++ json_string a ++ "]"))) /\
  (a <> b ->
   fst (calculate py_eval expression w)
   = Ret (success_text
            ("[" ++ (json_string a ++ ", " ++ json_string b) ++ "]")) \/
   fst (calculate py_eval expression w)
   = Ret (success_text
            ("[" ++ (json_string b ++ ", " ++ json_string a) ++ "]"))).
Proof.
  intros Hp. rewrite calculate_result. unfold evaluate. rewrite Hp.
  cbn [eval_expr eval_elements eval_element element_value is_starred
         eval_list constant_value build_set first_unhashable hashable fst
         iterate].
  destruct (set_iteration_two (hash_secret w) a b) as [Hsame Hdiff].
  split.
  - intros Hab. rewrite (Hsame Hab). cbn [app fst respond].
    rewrite dumps_success. reflexivity.
  - intros Hab. destruct (Hdiff Hab) as [-> | ->]; [left | right];
      cbn [app fst respond]; rewrite dumps_success; reflexivity.
Qed.

Lemma set_elements_in_some_order_witness :
  fst (calculate py_eval "[*{'a','b'}]" (process_start (key_of_seed 3)))
  = Ret (success_text
           ("[" ++ (json_string "a" ++ ", " ++ json_string "b") ++ "]"))
  \/
  fst (calculate py_eval "[*{'a','b'}]" (process_start (key_of_seed 3)))
  = Ret (success_text
           ("[" ++ (json_string "b" ++ ", " ++ json_string "a") ++ "]")).
Proof.
  apply (proj2 (set_elements_in_some_order "[*{'a','b'}]" "a" "b"
                  (process_start (key_of_seed 3)) eq_refl)).
  discriminate.
Defined.

(** ** A name bound inside the expression *)


